(** * noditor-graph: processing pipeline, neighbor grouping, link aggregation

    A shallow embedding of [src/processing.ts] (the pipeline engine, the
    neighbor helpers and the step factories) and of [src/export.ts] (the
    graph flattening adapter [graphologyToD3] and the link aggregator
    [graphologyToMD]), together with the properties the specification
    states about them.

    Conventions.
    - JavaScript values are the primitives of [JsVal]; numbers are the
      integral ones (below 10^21 in absolute value, where ToString prints
      every digit).  Plain objects are finite maps from property names to
      values, arrays are lists, and the ES [Map] is an insertion-ordered
      association list.
    - Code that calls caller-supplied functions runs in a state-and-exception
      monad over an abstract world [W] (the heap the callbacks may mutate:
      the store, the aggregate records, ...).  Every invocation of a callback
      is recorded in a trace, so that "is invoked exactly once", "is never
      invoked" and "in this order" are statements about that trace.
    - The store is graphology's [DirectedGraph], an external library: it is
      represented by the operations the code calls on it. *)

From stdpp Require Import base option list strings gmap fin_maps pretty.

#[local] Set Warnings "-clear-no-such-hyp".

(** ** JavaScript values and objects *)

Inductive JsVal : Type :=
  | JUndefined
  | JNull
  | JBool (b : bool)
  | JNum (n : Z)
  | JStr (s : string).

Global Instance JsVal_eq_dec : EqDecision JsVal.
Proof. solve_decision. Defined.

(** ToBoolean: [undefined], [null], [false], [0] and the empty string are
    falsy. *)
Definition truthy (v : JsVal) : bool :=
  match v with
  | JUndefined | JNull => false
  | JBool b => b
  | JNum n => negb (n =? 0)%Z
  | JStr s => negb (String.eqb s "")
  end.

(** ToString, which is also how a value becomes a property key and how a
    template literal renders it. *)
Definition toStr (v : JsVal) : string :=
  match v with
  | JUndefined => "undefined"
  | JNull => "null"
  | JBool true => "true"
  | JBool false => "false"
  | JNum n => pretty n
  | JStr s => s
  end.

(** [a || b] *)
Definition js_or (a b : JsVal) : JsVal := if truthy a then a else b.

(** [a === b]; without NaN this is equality of the two primitives. *)
Definition strict_eq (a b : JsVal) : bool := bool_decide (a = b).

(** A plain data object: its own enumerable properties. *)
Abbreviation Obj := (gmap string JsVal).

(** [o.k] (or [o[k]]) on a data object: [undefined] when absent. *)
Definition get_prop (o : Obj) (k : string) : JsVal := default JUndefined (o !! k).

(** [{ ...o, ...ext }]: the properties of [ext] are written after those of
    [o], so they win on a shared key. *)
Definition spread {V : Type} (o ext : gmap string V) : gmap string V := ext ∪ o.

(** An object literal has [Object.prototype] as its prototype, and a read
    [o[k]] that finds no own property [k] goes on to the prototype.  These
    are the names it finds there.  Each of the values is truthy (a function,
    or the prototype object itself for [__proto__]) and none of them is an
    array. *)
Definition objectPrototypeKeys : list string :=
  [ "constructor"; "hasOwnProperty"; "isPrototypeOf"; "propertyIsEnumerable";
    "toLocaleString"; "toString"; "valueOf"; "__proto__";
    "__defineGetter__"; "__defineSetter__"; "__lookupGetter__";
    "__lookupSetter__" ].

Definition inherited (k : string) : bool := bool_decide (k ∈ objectPrototypeKeys).

(** Thrown values. *)
Inductive Exn : Type :=
  | Error (msg : string)
  | TypeError (msg : string)
  | NotFoundGraphError (msg : string).

Global Instance Exn_eq_dec : EqDecision Exn.
Proof. solve_decision. Defined.

(** ** The ES Map: insertion-ordered, keys compared by SameValueZero *)

Section JsMap.
Context {V : Type}.

Definition JsMap : Type := list (JsVal * V).

Fixpoint jsmap_get (m : JsMap) (k : JsVal) : option V :=
  match m with
  | [] => None
  | (k', v) :: m' => if decide (k' = k) then Some v else jsmap_get m' k
  end.

Definition jsmap_has (m : JsMap) (k : JsVal) : bool :=
  match jsmap_get m k with Some _ => true | None => false end.

(** [m.set(k, v)]: an existing key keeps its position, a new key goes
    last. *)
Fixpoint jsmap_set (m : JsMap) (k : JsVal) (v : V) : JsMap :=
  match m with
  | [] => [(k, v)]
  | (k', v') :: m' =>
      if decide (k' = k) then (k', v) :: m' else (k', v') :: jsmap_set m' k v
  end.

(** Iteration order of the keys. *)
Definition jsmap_keys (m : JsMap) : list JsVal := m.*1.
End JsMap.

Arguments JsMap : clear implicits.

(** ** Computations with state and exceptions *)

(** A computation over a state [S] that returns an [A] or throws; the state
    it leaves behind is kept in both cases (nothing is rolled back). *)
Definition M (S A : Type) : Type := S → S * (Exn + A).

Definition ret {S A} (a : A) : M S A := λ s, (s, inr a).

Definition throw {S A} (e : Exn) : M S A := λ s, (s, inl e).

Definition bind {S A B} (m : M S A) (k : A → M S B) : M S B :=
  λ s, match m s with
       | (s', inr a) => k a s'
       | (s', inl e) => (s', inl e)
       end.

Global Instance M_ret {S} : MRet (M S) := λ A, @ret S A.
Global Instance M_bind {S} : MBind (M S) := λ A B k m, bind m k.

(** The same for code that only reads. *)
Global Instance result_ret : MRet (sum Exn) := λ A a, inr a.
Global Instance result_bind : MBind (sum Exn) :=
  λ A B k m, match m with inr a => k a | inl e => inl e end.

(** [for (const x of xs) body(x)] *)
Fixpoint for_of {S A} (xs : list A) (body : A → M S unit) : M S unit :=
  match xs with
  | [] => ret tt
  | x :: xs' => _ ← body x; for_of xs' body
  end.

(** [xs.reduce(f, init)] with an effectful [f], and a [for ... of] loop that
    threads a value. *)
Fixpoint foldM {S A B} (f : B → A → M S B) (init : B) (xs : list A) : M S B :=
  match xs with
  | [] => ret init
  | x :: xs' => b ← f init x; foldM f b xs'
  end.

(** [xs.map(f)] with an effectful [f]. *)
Fixpoint mapM {S A B} (f : A → M S B) (xs : list A) : M S (list B) :=
  match xs with
  | [] => ret []
  | x :: xs' => y ← f x; ys ← mapM f xs'; ret (y :: ys)
  end.

(** The same two loops for stateless code. *)
Fixpoint foldR {A B} (f : B → A → Exn + B) (init : B) (xs : list A) : Exn + B :=
  match xs with
  | [] => inr init
  | x :: xs' => b ← f init x; foldR f b xs'
  end.

Fixpoint mapR {A B} (f : A → Exn + B) (xs : list A) : Exn + list B :=
  match xs with
  | [] => inr []
  | x :: xs' => y ← f x; ys ← mapR f xs'; mret (y :: ys)
  end.

(** The world together with the trace of callback invocations. *)
Record Traced (W E : Type) : Type := mkTraced { world : W; trace : list E }.
Arguments mkTraced {W E} _ _.
Arguments world {W E} _.
Arguments trace {W E} _.

(** Calling a caller-supplied function: it runs on the world, and the call
    is appended to the trace (with its outcome, for the events that record
    it). *)
Definition invoke {W E A} (ev : Exn + A → E) (cb : M W A) : M (Traced W E) A :=
  λ st, let '(w', r) := cb (world st) in
        (mkTraced w' (trace st ++ [ev r]), r).

(** ** The store: graphology's [DirectedGraph] *)

(** Nodes and edges in the store's native iteration order, each with its
    attribute object; the three neighbor queries, which throw for a node the
    graph does not have. *)
Record DirectedGraph : Type := mkGraph {
  nodeEntries : list (string * Obj);
  edgeEntries : list (string * (string * string * Obj));
  outNeighbors : string → Exn + list string;
  inNeighbors : string → Exn + list string;
  neighbors : string → Exn + list string;
}.

(** [graph.nodes()] *)
Definition nodes_of (g : DirectedGraph) : list string := (nodeEntries g).*1.

(** [graph.getNodeAttributes(id)] *)
Definition getNodeAttributes (g : DirectedGraph) (id : string) : Exn + Obj :=
  match list_find (λ e, e.1 = id) (nodeEntries g) with
  | Some (_, e) => inr e.2
  | None => inl (NotFoundGraphError ("could not find the node " +:+ id))
  end.

(** [graph.filterNodes(predicate)]: the ids of the nodes the predicate
    accepts, in native order. *)
Definition filterNodes (g : DirectedGraph) (predicate : string → Obj → bool)
  : list string :=
  (filter (λ e, predicate e.1 e.2 = true) (nodeEntries g)).*1.

(** [graph.edges()] *)
Definition edges_of (g : DirectedGraph) : list string := (edgeEntries g).*1.

Definition edgeData (g : DirectedGraph) (e : string)
  : Exn + (string * string * Obj) :=
  match list_find (λ x, x.1 = e) (edgeEntries g) with
  | Some (_, x) => inr x.2
  | None => inl (NotFoundGraphError ("could not find the edge " +:+ e))
  end.

(** [graph.extremities(e)] and [graph.getEdgeAttributes(e)] *)
Definition extremities (g : DirectedGraph) (e : string) : Exn + (string * string) :=
  d ← edgeData g e; mret (d.1.1, d.1.2).

Definition getEdgeAttributes (g : DirectedGraph) (e : string) : Exn + Obj :=
  d ← edgeData g e; mret d.2.

(** ** processing.ts *)

(** [Processor<TInput, TOutput, TContext>]: a step takes the flowing value
    and the context; it may mutate the world and it may throw. *)
Definition Processor (S TInput TOutput TContext : Type) : Type :=
  TInput → TContext → M S TOutput.

(** *** ProcessingPipeline *)

Section Pipeline.
Context {S V C : Type}.

(** The two private fields of the class.  The context is an object: a map
    from its top-level keys to whatever they hold.  The methods that assign
    a field return the pipeline as it is after the call.  A step is handed
    the flowing value and the context, not the pipeline that runs it: the
    pipeline is not part of the world the steps act on. *)
Record ProcessingPipeline : Type := mkPipeline {
  processors : list (Processor S V V (gmap string C));
  context : gmap string C;
}.

(** [new ProcessingPipeline(context)] *)
Definition newPipeline (ctx : gmap string C) : ProcessingPipeline :=
  mkPipeline [] ctx.

(** [add(processor)]: [this.processors.push(processor)] *)
Definition add (p : ProcessingPipeline) (processor : Processor S V V (gmap string C))
  : ProcessingPipeline :=
  mkPipeline (processors p ++ [processor]) (context p).

(** [execute(input)]:
    [this.processors.reduce((data, processor) => processor(data, this.context), input)] *)
Definition execute (p : ProcessingPipeline) (input : V) : M S V :=
  foldM (λ data processor, processor data (context p)) input (processors p).

(** [executeMany(inputs)]: [inputs.map((input) => this.execute(input))] *)
Definition executeMany (p : ProcessingPipeline) (inputs : list V) : M S (list V) :=
  mapM (execute p) inputs.

(** [getContext()] *)
Definition getContext (p : ProcessingPipeline) : gmap string C := context p.

(** [updateContext(updates)]: [this.context = { ...this.context, ...updates }] *)
Definition updateContext (p : ProcessingPipeline) (updates : gmap string C)
  : ProcessingPipeline :=
  mkPipeline (processors p) (spread (context p) updates).
End Pipeline.

Arguments ProcessingPipeline : clear implicits.

(** *** getConnectedNodes and groupConnectedNodesByType *)

Inductive Direction : Type := DirIn | DirOut | DirBoth.

(** The object literal [{ id, ...attributes }]. *)
Definition nodeWithAttributes (id : string) (attributes : Obj) : Obj :=
  spread {[ "id" := JStr id ]} attributes.

(** [direction === "in" ? graph.inNeighbors : direction === "out" ?
    graph.outNeighbors : graph.neighbors] *)
Definition neighborFn (graph : DirectedGraph) (direction : Direction)
  : string → Exn + list string :=
  match direction with
  | DirIn => inNeighbors graph
  | DirOut => outNeighbors graph
  | DirBoth => neighbors graph
  end.

(** The [direction] parameter is optional ([None]: the argument is left
    out) and defaults to ["out"]. *)
Definition getConnectedNodes (graph : DirectedGraph) (nodeId : string)
    (direction : option Direction) : Exn + list Obj :=
  let direction := default DirOut direction in
  ids ← neighborFn graph direction nodeId;
  mapR (λ id, attributes ← getNodeAttributes graph id;
              mret (nodeWithAttributes id attributes)) ids.

(** The key a record is filed under: [node.type || "unknown"], used as a
    property name. *)
Definition groupKey (node : Obj) : string :=
  toStr (js_or (get_prop node "type") (JStr "unknown")).

(** One turn of the loop over [connected].  [grouped] is the object literal
    [{}]: reading [grouped[type]] finds an own property (always one of the
    arrays stored by this loop), or else a property inherited from
    [Object.prototype], or else [undefined].  Only in the last case is a
    fresh array stored; an inherited value is truthy and has no [push]. *)
Definition groupNode (grouped : gmap string (list Obj)) (node : Obj)
  : Exn + gmap string (list Obj) :=
  let type := groupKey node in
  match grouped !! type with
  | Some arr => inr (<[type := arr ++ [node]]> grouped)
  | None =>
      if inherited type
      then inl (TypeError "grouped[type].push is not a function")
      else inr (<[type := [node]]> grouped)
  end.

Definition groupConnectedNodesByType (graph : DirectedGraph) (nodeId : string)
    (direction : option Direction) : Exn + gmap string (list Obj) :=
  connected ← getConnectedNodes graph nodeId direction;
  foldR groupNode ∅ connected.

(** *** createNodeFilter and createBatchProcessor *)

Section Steps.
Context {W C TInput : Type}.

(** [store v w]: the graph a context field refers to in the world [w], when
    the field holds a graph. *)
Variable store : C → W → option DirectedGraph.

(** [context.graph], about to receive a method call: without a graph there,
    the call is a [TypeError]. *)
Definition contextGraph (context : gmap string C) (w : W) : Exn + DirectedGraph :=
  match context !! "graph" ≫= (λ v, store v w) with
  | Some g => inr g
  | None => inl (TypeError "context.graph.filterNodes is not a function")
  end.

(** Reading the world. *)
Definition readWorld {E A} (f : W → Exn + A) : M (Traced W E) A :=
  λ st, (st, f (world st)).


(** The trace of a batch step lists the node ids [processFn] was called
    with. *)
Definition createBatchProcessor (nodeFilter : string → Obj → bool)
    (processFn : string → gmap string C → M W unit)
  : Processor (Traced W string) TInput unit (gmap string C) :=
  λ _input context,
    nodes ← readWorld (λ w, g ← contextGraph context w;
                            mret (filterNodes g nodeFilter));
    for_of nodes (λ node, invoke (λ _, node) (processFn node context)).
End Steps.

(** ** export.ts *)

Record GraphOutput : Type := mkGraphOutput {
  nodes : list Obj;
  links : list Obj;
}.

(** [graphologyToD3(graph)] *)
Definition graphologyToD3 (graph : DirectedGraph) : Exn + GraphOutput :=
  ns ← mapR (λ id, attributes ← getNodeAttributes graph id;
                   mret (spread {[ "id" := JStr id ]} attributes))
            (nodes_of graph);
  ls ← mapR (λ id, st ← extremities graph id;
                   attributes ← getEdgeAttributes graph id;
                   mret (spread {[ "source" := JStr st.1; "target" := JStr st.2 ]}
                                attributes))
            (edges_of graph);
  mret (mkGraphOutput ns ls).

(** *** graphologyToMD, the link aggregator *)

Section Aggregator.
Context {W TItem : Type}.

(** The calls the aggregator makes to the functions it is given.  [TItem]
    is a reference to a record that lives in the world. *)
Inductive MdEvent : Type :=
  | EvCreateEmptyItem (outcome : Exn + TItem)
  | EvPopulateItemFromNode (data : TItem) (node : Obj)
  | EvProcessLink (data : TItem) (link : Obj) (targetNode : option Obj)
  | EvGenerateMarkdown (items : JsMap TItem).

(** The optional [nodeFilter] is a predicate (it has no effect and it
    returns); the other four functions act on the world and may throw. *)
Variable rows : GraphOutput.
Variable nodeFilter : option (Obj → bool).
Variable createEmptyItem : M W TItem.
Variable populateItemFromNode : TItem → Obj → M W unit.
Variable processLink : TItem → Obj → option Obj → M W unit.
Variable generateMarkdown : JsMap TItem → M W unit.

(** [rows.nodes.find((n) => { if (n.id !== row.source) return false;
                              return nodeFilter ? nodeFilter(n) : true; })] *)
Definition findSourceNode (source : JsVal) : option Obj :=
  List.find (λ n, if negb (strict_eq (get_prop n "id") source) then false
                  else match nodeFilter with Some f => f n | None => true end)
            (nodes rows).

(** [rows.nodes.find((n) => n.id === row.target)] *)
Definition findTargetNode (target : JsVal) : option Obj :=
  List.find (λ n, strict_eq (get_prop n "id") target) (nodes rows).

(** [new Error(`No node found for ${row.source} => ${row.target}`)] *)
Definition noNodeFound (row : Obj) : Exn :=
  Error ("No node found for " +:+ toStr (get_prop row "source")
         +:+ " => " +:+ toStr (get_prop row "target")).

(** The [if (items.has(row.source)) ... else ...] that binds [data].  The
    values of [items] are records, so [has] holds exactly when [get] finds
    one. *)
Definition itemFor (items : JsMap TItem) (row : Obj) : M (Traced W MdEvent) TItem :=
  match jsmap_get items (get_prop row "source") with
  | Some data => ret data
  | None =>
      match findSourceNode (get_prop row "source") with
      | None => throw (noNodeFound row)
      | Some node =>
          data ← invoke EvCreateEmptyItem createEmptyItem;
          _ ← invoke (λ _, EvPopulateItemFromNode data node)
                     (populateItemFromNode data node);
          ret data
      end
  end.

(** The body of [for (const row of rows.links)]. *)
Definition scanLink (items : JsMap TItem) (row : Obj)
  : M (Traced W MdEvent) (JsMap TItem) :=
  data ← itemFor items row;
  let targetNode := findTargetNode (get_prop row "target") in
  _ ← invoke (λ _, EvProcessLink data row targetNode)
             (processLink data row targetNode);
  ret (jsmap_set items (get_prop row "source") data).

Definition scanLinks (items : JsMap TItem) (ls : list Obj)
  : M (Traced W MdEvent) (JsMap TItem) :=
  foldM scanLink items ls.

Definition graphologyToMD : M (Traced W MdEvent) unit :=
  items ← scanLinks [] (links rows);
  invoke (λ _, EvGenerateMarkdown items) (generateMarkdown items).
End Aggregator.

(** ** Reading a run of the link aggregator *)

(** The distinct elements of [xs] in the order of their first occurrence,
    leaving out those already in [seen]. *)
Fixpoint firstSeen (seen xs : list JsVal) : list JsVal :=
  match xs with
  | [] => []
  | x :: xs' =>
      if decide (x ∈ seen) then firstSeen seen xs'
      else x :: firstSeen (seen ++ [x]) xs'
  end.

(** [row.source] for every link. *)
Definition linkSources (ls : list Obj) : list JsVal :=
  (λ row, get_prop row "source") <$> ls.

Section AggregatorSpec.
Context {TItem : Type}.
Variable rows : GraphOutput.
Variable nodeFilter : option (Obj → bool).

(** The calls a scan of [ls] is expected to make when it ends with the
    mapping [items], the sources in [seen] having a record already: a link
    whose source is new has the record of that source created and populated
    from the source node, then every link is folded into the record of its
    source. *)
Fixpoint expectedCalls (items : JsMap TItem) (seen : list JsVal) (ls : list Obj)
  : list (@MdEvent TItem) :=
  match ls with
  | [] => []
  | row :: ls' =>
      let source := get_prop row "source" in
      match jsmap_get items source with
      | None => []
      | Some data =>
          (if decide (source ∈ seen) then []
           else match findSourceNode rows nodeFilter source with
                | Some node => [EvCreateEmptyItem (inr data);
                                EvPopulateItemFromNode data node]
                | None => []
                end)
          ++ EvProcessLink data row (findTargetNode rows (get_prop row "target"))
          :: expectedCalls items
               (if decide (source ∈ seen) then seen else seen ++ [source]) ls'
      end
  end.

Definition isSinkCall (ev : @MdEvent TItem) : bool :=
  match ev with EvGenerateMarkdown _ => true | _ => false end.

(** The mappings the sink was called with. *)
Definition sinkCalls (tr : list (@MdEvent TItem)) : list (JsMap TItem) :=
  omap (λ ev, match ev with EvGenerateMarkdown items => Some items | _ => None end) tr.

(** The links the fold function was called with. *)
Definition foldedLinks (tr : list (@MdEvent TItem)) : list Obj :=
  omap (λ ev, match ev with EvProcessLink _ link _ => Some link | _ => None end) tr.
End AggregatorSpec.

(** ** processing.ts: the other step factories *)

(** A result computed without touching the state. *)
Definition liftResult {St A} (r : Exn + A) : M St A := λ s, (s, r).

(** *** Collection steps

    The callbacks of these steps are the pure functions their types
    announce; an array method hands them each item with its index. *)

Section CollectionSteps.
Context {St TContext : Type}.

(** [items.filter(predicate)], counting indices from [i]. *)
Fixpoint filterFrom {A} (predicate : A → nat → bool) (i : nat) (items : list A)
  : list A :=
  match items with
  | [] => []
  | item :: rest =>
      if predicate item i then item :: filterFrom predicate (S i) rest
      else filterFrom predicate (S i) rest
  end.

Definition createFilter {A} (predicate : A → nat → bool)
  : Processor St (list A) (list A) TContext :=
  λ items _context, ret (filterFrom predicate 0 items).

(** [items.map(mapFn)] *)
Definition createMapper {A B} (mapFn : A → nat → B)
  : Processor St (list A) (list B) TContext :=
  λ items _context, ret (imap (λ i item, mapFn item i) items).

(** [items.reduce(reduceFn, initialValue)], counting indices from [i]. *)
Fixpoint reduceFrom {A B} (reduceFn : B → A → nat → B) (i : nat)
    (accumulator : B) (items : list A) : B :=
  match items with
  | [] => accumulator
  | item :: rest => reduceFrom reduceFn (S i) (reduceFn accumulator item i) rest
  end.

Definition createReducer {A B} (reduceFn : B → A → nat → B) (initialValue : B)
  : Processor St (list A) B TContext :=
  λ items _context, ret (reduceFrom reduceFn 0 initialValue items).

(** One turn of the loop of [createGrouper]; [groups] is an object literal,
    read as [grouped] is in [groupNode]. *)
Definition groupItem {A} (keyFn : A → string) (groups : gmap string (list A))
    (item : A) : Exn + gmap string (list A) :=
  let key := keyFn item in
  match groups !! key with
  | Some arr => inr (<[key := arr ++ [item]]> groups)
  | None =>
      if inherited key
      then inl (TypeError "groups[key].push is not a function")
      else inr (<[key := [item]]> groups)
  end.

Definition createGrouper {A} (keyFn : A → string)
  : Processor St (list A) (gmap string (list A)) TContext :=
  λ items _context, liftResult (foldR (groupItem keyFn) ∅ items).
End CollectionSteps.

(** *** createConditionalProcessor *)

Section ConditionalStep.
Context {St V TContext : Type}.

(** The condition is called like a step: it may act on the state.  Without
    an [elseProcessor] the input is returned as it is. *)
Definition createConditionalProcessor
    (condition : V → TContext → M St bool)
    (thenProcessor : Processor St V V TContext)
    (elseProcessor : option (Processor St V V TContext))
  : Processor St V V TContext :=
  λ input context,
    condition input context ≫= λ b : bool,
      if b then thenProcessor input context
      else match elseProcessor with
           | Some elseProcessor => elseProcessor input context
           | None => ret input
           end.
End ConditionalStep.

(** *** createParallelProcessor *)

Section ParallelStep.
Context {W TInput R TOutput TContext : Type}.

(** The calls of a parallel step: the branch at a position, with what it
    returned or threw, and the combine function with the results. *)
Inductive ParEvent : Type :=
  | EvBranch (position : nat) (outcome : Exn + R)
  | EvCombine (results : list R).

(** [processors.map((processor) => processor(input, context))] then
    [combineFn(results)]. *)
Definition createParallelProcessor
    (processors : list (Processor W TInput R TContext))
    (combineFn : list R → M W TOutput)
  : Processor (Traced W ParEvent) TInput TOutput TContext :=
  λ input context,
    results ← mapM (λ ip : nat * Processor W TInput R TContext,
                      invoke (EvBranch ip.1) (ip.2 input context))
                   (imap pair processors);
    invoke (λ _ : Exn + TOutput, EvCombine results) (combineFn results).
End ParallelStep.

(** *** createNodeTransformer *)

Section TransformerStep.
Context {W C TOutput : Type}.
Variable store : C → W → option DirectedGraph.

(** The trace lists the node ids [transformFn] was called with.  The
    attributes and the grouped neighbors are read from the store as it is
    when the node's turn comes. *)
Definition createNodeTransformer
    (transformFn : string → Obj → gmap string (list Obj) → gmap string C → M W TOutput)
  : Processor (Traced W string) (list string) (list TOutput) (gmap string C) :=
  λ nodeIds context,
    mapM (λ nodeId,
            attributes ← readWorld (λ w, g ← contextGraph store context w;
                                         getNodeAttributes g nodeId);
            connectedNodes ← readWorld (λ w, g ← contextGraph store context w;
                                             groupConnectedNodesByType g nodeId None);
            invoke (λ _, nodeId)
                   (transformFn nodeId attributes connectedNodes context))
         nodeIds.
End TransformerStep.

(** *** getEdgeAmounts *)

(** [graph.getEdgeAttribute(source, target, name)]: the attribute of the
    edge from [source] to [target]; it throws when there is no such edge. *)
Definition getEdgeAttribute (g : DirectedGraph) (source target name : string)
  : Exn + JsVal :=
  match list_find (λ e, e.2.1.1 = source ∧ e.2.1.2 = target) (edgeEntries g) with
  | Some (_, e) => inr (get_prop e.2.2 name)
  | None => inl (NotFoundGraphError
                   ("could not find an edge for the given path (" +:+ source
                    +:+ " - " +:+ target +:+ ")"))
  end.

(** [amounts[key] = value] on an object literal, [value] a number: the name
    [__proto__] is the prototype accessor, which leaves the object alone
    when it is given a primitive. *)
Definition assignProp (amounts : Obj) (key : string) (value : JsVal) : Obj :=
  if bool_decide (key = "__proto__") then amounts else <[key := value]> amounts.

(** [target.id] is used as a node key by the store and as a property name
    by [amounts]: a string both times. *)
Definition getEdgeAmounts (graph : DirectedGraph) (sourceNode : string)
    (targetNodes : list Obj) : Exn + Obj :=
  foldR (λ amounts target,
           let id := toStr (get_prop target "id") in
           amount ← getEdgeAttribute graph sourceNode id "amount";
           mret (assignProp amounts id (js_or amount (JNum 0))))
        ∅ targetNodes.

(** ** example/export.shared.ts: the functions [exportAll] gives the aggregator *)

(** The [Item] of the example; its fields hold whatever the nodes hold. *)
Record Item : Type := mkItem {
  item_id : JsVal;
  item_name : JsVal;
  item_type : JsVal;
  item_description : JsVal;
  item_weight : JsVal;
  item_value : JsVal;
  item_set : JsVal;
  item_slot : JsVal;
  item_tier : JsVal;
  item_attributes : Obj;
}.

(** The object literal of [createEmptyItem]. *)
Definition emptyItem : Item :=
  mkItem (JStr "") (JStr "") (JStr "") (JStr "") (JNum 0) (JNum 0)
         (JStr "") (JStr "") (JStr "") ∅.

(** [key in node], on a data object and for a name that no object
    inherits. *)
Definition has_prop (o : Obj) (key : string) : bool :=
  bool_decide (is_Some (o !! key)).

(** The assignments of [populateItemFromNode(data, node)], in order. *)
Definition populateFrom (node : Obj) (data : Item) : Item :=
  let isItemNode := strict_eq (get_prop node "type") (JStr "item") in
  let named := js_or (get_prop node "name") (JStr "Unknown") in
  mkItem
    (get_prop node "id")
    (get_prop node "name")
    (get_prop node "type")
    (js_or (get_prop node "description") (JStr ""))
    (if isItemNode then js_or (get_prop node "weight") (JNum 0) else item_weight data)
    (if isItemNode then js_or (get_prop node "value") (JNum 0) else item_value data)
    (if has_prop node "set" then named else item_set data)
    (if has_prop node "slot" then named else item_slot data)
    (if has_prop node "tier" then named else item_tier data)
    (item_attributes data).

(** The assignment of [processLink(data, link, targetNode)] once the target
    node is there: by the type of the target. *)
Definition foldTarget (link targetNode : Obj) (data : Item) : Item :=
  let type := get_prop targetNode "type" in
  let name := get_prop targetNode "name" in
  if strict_eq type (JStr "set") then
    mkItem (item_id data) (item_name data) (item_type data) (item_description data)
           (item_weight data) (item_value data) name (item_slot data)
           (item_tier data) (item_attributes data)
  else if strict_eq type (JStr "slot") then
    mkItem (item_id data) (item_name data) (item_type data) (item_description data)
           (item_weight data) (item_value data) (item_set data) name
           (item_tier data) (item_attributes data)
  else if strict_eq type (JStr "tier") then
    mkItem (item_id data) (item_name data) (item_type data) (item_description data)
           (item_weight data) (item_value data) (item_set data) (item_slot data)
           name (item_attributes data)
  else if strict_eq type (JStr "attribute") then
    mkItem (item_id data) (item_name data) (item_type data) (item_description data)
           (item_weight data) (item_value data) (item_set data) (item_slot data)
           (item_tier data)
           (assignProp (item_attributes data) (toStr (get_prop targetNode "id"))
                       (js_or (get_prop link "amount") (JNum 0)))
  else data.

(** The records live on a heap; a record is its address.  [createEmptyItem]
    makes a new object at every call. *)
Definition exampleCreateEmptyItem : M (list Item) nat :=
  λ heap, (heap ++ [emptyItem], inr (length heap)).

Definition examplePopulateItemFromNode (data : nat) (node : Obj)
  : M (list Item) unit :=
  λ heap, (alter (populateFrom node) data heap, inr tt).

(** [new Error(`No target node for ${link.source} => ${link.target}`)] *)
Definition noTargetNode (link : Obj) : Exn :=
  Error ("No target node for " +:+ toStr (get_prop link "source")
         +:+ " => " +:+ toStr (get_prop link "target")).

Definition exampleProcessLink (data : nat) (link : Obj) (targetNode : option Obj)
  : M (list Item) unit :=
  match targetNode with
  | None => throw (noTargetNode link)
  | Some targetNode => λ heap, (alter (foldTarget link targetNode) data heap, inr tt)
  end.

(** [nodeFilter: (node) => node.type === "item"] *)
Definition exampleNodeFilter : option (Obj → bool) :=
  Some (λ node, strict_eq (get_prop node "type") (JStr "item")).

(** What the record of the source [source] should be after the links [ls]:
    the empty item populated from the source node, then folded with the
    links of that source, in order. *)
Definition applyLink (rows : GraphOutput) (data : Item) (link : Obj) : Item :=
  match findTargetNode rows (get_prop link "target") with
  | Some targetNode => foldTarget link targetNode data
  | None => data
  end.

Definition initialRecord (rows : GraphOutput) (source : JsVal) : Item :=
  match findSourceNode rows exampleNodeFilter source with
  | Some node => populateFrom node emptyItem
  | None => emptyItem
  end.

Definition recordOf (rows : GraphOutput) (source : JsVal) (ls : list Obj) : Item :=
  foldl (applyLink rows) (initialRecord rows source)
        (filter (λ l, get_prop l "source" = source) ls).

(** The scan of the example, started on a heap. *)
Definition exampleScan (rows : GraphOutput) (items : JsMap nat) (ls : list Obj)
  : M (Traced (list Item) (@MdEvent nat)) (JsMap nat) :=
  scanLinks rows exampleNodeFilter exampleCreateEmptyItem
    examplePopulateItemFromNode exampleProcessLink items ls.

(** The mapping and the heap agree after the links [done], on a heap that
    began as [heap0]: every key has the record of its source at its address,
    two keys never share an address, the keys are the sources seen, and the
    objects of [heap0] are still there, unchanged. *)
Definition exampleAgree (rows : GraphOutput) (heap0 : list Item) (done : list Obj)
    (items : JsMap nat) (heap : list Item) : Prop :=
  (∀ k r, jsmap_get items k = Some r → heap !! r = Some (recordOf rows k done)) ∧
  (∀ k1 k2 r, jsmap_get items k1 = Some r → jsmap_get items k2 = Some r → k1 = k2) ∧
  (∀ k, is_Some (jsmap_get items k) ↔ k ∈ linkSources done) ∧
  (∀ k r, jsmap_get items k = Some r → length heap0 ≤ r) ∧
  heap0 `prefix_of` heap.

(** ** Replaying the calls of a run

    What a list of calls does to the world, told apart from the code that
    makes them: each call is made on the world the previous one left. *)

(** The action of a batch step returns on every id of [ids] in turn, taking
    the world from [w] to [w']. *)
Fixpoint actionsLead {W} (action : string → M W unit) (ids : list string)
    (w w' : W) : Prop :=
  match ids with
  | [] => w' = w
  | id :: ids' => ∃ w1, action id w = (w1, inr tt) ∧ actionsLead action ids' w1 w'
  end.

Section Replay.
Context {W TItem : Type}.
Variable createEmptyItem : M W TItem.
Variable populateItemFromNode : TItem → Obj → M W unit.
Variable processLink : TItem → Obj → option Obj → M W unit.
Variable generateMarkdown : JsMap TItem → M W unit.

(** The call [ev], made on the world [w], returns and leaves [w']; a call of
    the factory returns the record the event names. *)
Definition callReturns (ev : @MdEvent TItem) (w w' : W) : Prop :=
  match ev with
  | EvCreateEmptyItem outcome =>
      ∃ data, outcome = inr data ∧ createEmptyItem w = (w', inr data)
  | EvPopulateItemFromNode data node =>
      populateItemFromNode data node w = (w', inr tt)
  | EvProcessLink data link targetNode =>
      processLink data link targetNode w = (w', inr tt)
  | EvGenerateMarkdown items =>
      generateMarkdown items w = (w', inr tt)
  end.

(** The calls [evs], made one after the other from the world [w], all
    return and leave [w']. *)
Fixpoint callsLead (evs : list (@MdEvent TItem)) (w w' : W) : Prop :=
  match evs with
  | [] => w' = w
  | ev :: evs' => ∃ w1, callReturns ev w w1 ∧ callsLead evs' w1 w'
  end.
End Replay.

(** The branches [processors], called one after the other on [input] and
    [context] from the world [w], return [results] and leave [w']. *)
Fixpoint branchesLead {W TInput R TContext}
    (processors : list (Processor W TInput R TContext))
    (input : TInput) (context : TContext) (results : list R) (w w' : W) : Prop :=
  match processors, results with
  | [], [] => w' = w
  | processor :: processors', x :: results' =>
      ∃ w1, processor input context w = (w1, inr x) ∧
            branchesLead processors' input context results' w1 w'
  | _, _ => False
  end.

(** ** Sample data *)

(** A store built from a node table and an edge table, with neighbors
    reported in edge order. *)
Definition neighborsBy (ns : list (string * Obj))
    (pick : string * (string * string * Obj) → option string)
    (es : list (string * (string * string * Obj))) (id : string)
  : Exn + list string :=
  if bool_decide (id ∈ ns.*1) then inr (omap pick es)
  else inl (NotFoundGraphError ("could not find the node " +:+ id)).

Definition simpleGraph (ns : list (string * Obj))
    (es : list (string * (string * string * Obj))) : DirectedGraph :=
  let out id := λ e : string * (string * string * Obj),
    if bool_decide (e.2.1.1 = id) then Some e.2.1.2 else None in
  let inc id := λ e : string * (string * string * Obj),
    if bool_decide (e.2.1.2 = id) then Some e.2.1.1 else None in
  mkGraph ns es
    (λ id, neighborsBy ns (out id) es id)
    (λ id, neighborsBy ns (inc id) es id)
    (λ id, a ← neighborsBy ns (inc id) es id;
           b ← neighborsBy ns (out id) es id; mret (a ++ b)).

(** A cut of the sword example; the node attributes repeat the node key
    under ["id"], as the example's do, except for [relic]. *)
Definition swordGraph : DirectedGraph :=
  simpleGraph
    [ ("basic", {[ "id" := JStr "basic"; "name" := JStr "Basic"; "type" := JStr "set" ]});
      ("normal", {[ "id" := JStr "normal"; "name" := JStr "Normal"; "type" := JStr "tier" ]});
      ("speed", {[ "name" := JStr "Speed"; "type" := JStr "attribute" ]});
      ("attack", {[ "id" := JStr "attack"; "name" := JStr "Attack"; "type" := JStr "attribute" ]});
      ("relic", {[ "id" := JStr "relic_v2"; "name" := JStr "Relic" ]});
      ("sword_1", {[ "id" := JStr "sword_1"; "name" := JStr "Sword I"; "type" := JStr "item";
                     "weight" := JNum 1; "value" := JNum 5 ]}) ]
    [ ("e0", ("sword_1", "attack", {[ "amount" := JNum 5 ]}));
      ("e1", ("sword_1", "speed", {[ "amount" := JNum 1 ]}));
      ("e2", ("sword_1", "normal", ∅));
      ("e3", ("sword_1", "relic", ∅));
      ("e4", ("sword_1", "basic", ∅)) ].

(** A graph of program entities: one of the node types is the word
    ["constructor"]. *)
Definition classGraph : DirectedGraph :=
  simpleGraph
    [ ("Widget", {[ "type" := JStr "class" ]});
      ("Widget.render", {[ "type" := JStr "method" ]});
      ("Widget.new", {[ "type" := JStr "constructor" ]}) ]
    [ ("e0", ("Widget", "Widget.render", ∅));
      ("e1", ("Widget", "Widget.new", ∅)) ].

(** A world that is just the store, a context whose [graph] field is the
    handle on it, a predicate and an action for a batch step: the action
    doubles the node's ["value"] in place. *)
Definition theStore : unit → DirectedGraph → option DirectedGraph := λ _ g, Some g.

Definition graphContext : gmap string unit := {[ "graph" := tt ]}.

Definition isItem (_node : string) (attributes : Obj) : bool :=
  strict_eq (get_prop attributes "type") (JStr "item").

Definition doubleValue (node : string) (_context : gmap string unit)
  : M DirectedGraph unit :=
  λ g,
    let upd (e : string * Obj) :=
      if bool_decide (e.1 = node)
      then (e.1, <["value" :=
                    match get_prop e.2 "value" with
                    | JNum n => JNum (2 * n)
                    | v => v
                    end]> e.2)
      else e in
    (mkGraph (upd <$> nodeEntries g) (edgeEntries g)
             (outNeighbors g) (inNeighbors g) (neighbors g), inr tt).

(** Aggregation over a heap of records: a record is an address in a list of
    objects.  The four functions follow the example's: the fold function
    insists on a target node. *)
Definition heapCreateEmptyItem : M (list Obj) nat :=
  λ heap, (heap ++ [{[ "name" := JStr "" ]}], inr (length heap)).

Definition heapPopulateItemFromNode (data : nat) (node : Obj) : M (list Obj) unit :=
  λ heap, (alter (λ o, <["name" := get_prop node "name"]> o) data heap, inr tt).

Definition heapProcessLink (data : nat) (link : Obj) (targetNode : option Obj)
  : M (list Obj) unit :=
  λ heap,
    match targetNode with
    | None => (heap, inl (Error ("No target node for " +:+ toStr (get_prop link "source")
                                 +:+ " => " +:+ toStr (get_prop link "target"))))
    | Some t =>
        (alter (λ o, <[toStr (get_prop t "id") :=
                        js_or (get_prop link "amount") (JNum 0)]> o) data heap,
         inr tt)
    end.

Definition heapGenerateMarkdown (_items : JsMap nat) : M (list Obj) unit := ret tt.

Definition itemFilter : option (Obj → bool) :=
  Some (λ node, strict_eq (get_prop node "type") (JStr "item")).

Definition link (source target : string) (attributes : Obj) : Obj :=
  spread {[ "source" := JStr source; "target" := JStr target ]} attributes.

(** Two items sharing an attribute; the node [C] is the source of no link. *)
Definition itemRows : GraphOutput :=
  mkGraphOutput
    [ {[ "id" := JStr "C"; "type" := JStr "tier"; "name" := JStr "Advanced" ]};
      {[ "id" := JStr "B"; "type" := JStr "attribute"; "name" := JStr "Attack" ]};
      {[ "id" := JStr "A"; "type" := JStr "item"; "name" := JStr "Sword I" ]};
      {[ "id" := JStr "D"; "type" := JStr "item"; "name" := JStr "Sword II" ]} ]
    [ link "D" "B" {[ "amount" := JNum 2 ]};
      link "A" "B" {[ "amount" := JNum 7 ]};
      link "D" "C" ∅;
      link "A" "C" ∅ ].

(** The same links, with a last one whose source is not an item. *)
Definition tierRows : GraphOutput :=
  mkGraphOutput (nodes itemRows) (links itemRows ++ [link "C" "A" ∅]).

(** A link to a node that is not in the list. *)
Definition danglingRows : GraphOutput :=
  mkGraphOutput (nodes itemRows) [link "A" "Z" ∅].

(** The aggregator over the heap, started on an empty heap. *)
Definition heapAggregate (rows : GraphOutput)
  : Traced (list Obj) (@MdEvent nat) * (Exn + unit) :=
  graphologyToMD rows itemFilter heapCreateEmptyItem heapPopulateItemFromNode
    heapProcessLink heapGenerateMarkdown (mkTraced [] []).

(** A step over a counter: it counts the inputs it lets through and throws
    on [null]. *)
Definition countingStep : Processor nat JsVal JsVal (gmap string unit) :=
  λ input _context n,
    match input with
    | JNull => (n, inl (Error "null input"))
    | _ => (S n, inr input)
    end.

Definition countingPipeline : ProcessingPipeline nat JsVal unit :=
  add (newPipeline graphContext) countingStep.

(** A transform function that reads the store only: the node's name with the
    number of its neighbor groups. *)
Definition nameAndGroups (_nodeId : string) (attributes : Obj)
    (connectedNodes : gmap string (list Obj)) (_context : gmap string unit)
  : M DirectedGraph (JsVal * nat) :=
  ret (get_prop attributes "name", size connectedNodes).

(** * Properties *)

(** ** Pipeline engine *)

Section PipelineFacts.
Context {S V C : Type}.
Implicit Types (p : ProcessingPipeline S V C) (ctx : gmap string C).

Lemma bind_ret_l {A B} (a : A) (k : A → M S B) s : (x ← ret a; k x) s = k a s.
Proof. reflexivity. Qed.

Lemma bind_assoc {A B D} (m : M S A) (k : A → M S B) (h : B → M S D) s :
  (y ← (x ← m; k x); h y) s = (x ← m; y ← k x; h y) s.
Proof.
  unfold mbind, M_bind, bind. destruct (m s) as [s' [e|a]]; reflexivity.
Qed.

Lemma foldM_app {A B} (f : B → A → M S B) xs ys init s :
  foldM f init (xs ++ ys) s = (b ← foldM f init xs; foldM f b ys) s.
Proof.
  revert init s. induction xs as [|x xs IH]; intros init s; [reflexivity|].
  cbn [foldM app]. unfold mbind, M_bind, bind in *.
  destruct (f init x s) as [s' [e|b]]; [reflexivity|]. apply IH.
Qed.

(** C4. [execute] is the left fold of the steps in insertion order: on an
    empty pipeline it returns its input and leaves the world alone; on
    [[s1; s2]] it is [s2(s1(input, ctx), ctx)]; running a pipeline that was
    extended by [add] is running the shorter pipeline and handing its output
    to the added step, whose output is returned as it is; and a pipeline
    split in two runs the first part, then the second on its output. *)
Theorem execute_left_fold ctx :
  (∀ (input : V) (s : S), execute (newPipeline ctx) input s = (s, inr input)) ∧
  (∀ s1 s2 (input : V) (s : S),
     execute (add (add (newPipeline ctx) s1) s2) input s
     = (x ← s1 input ctx; s2 x ctx) s) ∧
  (∀ p step (input : V) (s : S),
     execute (add p step) input s
     = (x ← execute p input; step x (context p)) s) ∧
  (∀ steps1 steps2 (input : V) (s : S),
     execute (mkPipeline (steps1 ++ steps2) ctx) input s
     = (x ← execute (mkPipeline steps1 ctx) input;
        execute (mkPipeline steps2 ctx) x) s).
Proof.
  split_and!.
  - reflexivity.
  - intros s1 s2 input s. unfold execute; cbn.
    unfold mbind, M_bind, bind.
    destruct (s1 input ctx s) as [s' [e|x]]; [reflexivity|].
    destruct (s2 x ctx s') as [s'' [e|y]]; reflexivity.
  - intros p step input s. unfold execute, add; cbn [processors context].
    rewrite foldM_app. unfold mbind, M_bind, bind.
    match goal with |- context [foldM ?f input (processors p) s] =>
      destruct (foldM f input (processors p) s) as [s' [e|x]] end; [reflexivity|].
    cbn. unfold mbind, M_bind, bind.
    destruct (step x (context p) s') as [s'' [e|y]]; reflexivity.
  - intros steps1 steps2 input s. unfold execute; cbn [processors context].
    apply foldM_app.
Qed.

(** C8. [updateContext] merges shallowly: a top-level key of the partial
    takes the partial's value, every other key keeps the value it had, and
    [getContext] returns the merged object; the steps are untouched. *)
Theorem updateContext_shallow_merge p (updates : gmap string C) :
  (∀ k, getContext (updateContext p updates) !! k
        = match updates !! k with
          | Some v => Some v
          | None => getContext p !! k
          end) ∧
  processors (updateContext p updates) = processors p.
Proof.
  unfold getContext, updateContext, spread; cbn [context processors].
  split; [|reflexivity]. intros k.
  destruct (updates !! k) as [v|] eqn:Hk.
  - by apply lookup_union_Some_l.
  - by apply lookup_union_r.
Qed.
End PipelineFacts.

(** ** Neighbor helpers *)

Lemma mapR_inr {A B} (f : A → Exn + B) xs ys :
  mapR f xs = inr ys → Forall2 (λ x y, f x = inr y) xs ys.
Proof.
  revert ys. induction xs as [|x xs IH]; intros ys; cbn.
  - intros [= <-]. constructor.
  - destruct (f x) as [e|y] eqn:Hx; cbn; [discriminate|].
    destruct (mapR f xs) as [e|ys'] eqn:Hxs; cbn; [discriminate|].
    intros [= <-]. constructor; [exact Hx|]. by apply IH.
Qed.

Lemma mapR_total {A B} (f : A → Exn + B) xs :
  Forall (λ x, ∃ y, f x = inr y) xs → ∃ ys, mapR f xs = inr ys.
Proof.
  induction 1 as [|x xs [y Hy] _ [ys Hys]]; cbn; [by eexists|].
  rewrite Hy; cbn. rewrite Hys; cbn. by eexists.
Qed.

Lemma getNodeAttributes_listed g id :
  id ∈ nodes_of g → ∃ attrs, getNodeAttributes g id = inr attrs.
Proof.
  unfold nodes_of, getNodeAttributes. intros Hin.
  apply list_elem_of_fmap in Hin as [e [-> He]].
  destruct (list_find_elem_of (λ x, x.1 = e.1) _ e He eq_refl) as [[i x] ->].
  by eexists.
Qed.

Lemma nodeWithAttributes_id id attributes :
  nodeWithAttributes id attributes !! "id"
  = Some (match attributes !! "id" with Some v => v | None => JStr id end).
Proof.
  unfold nodeWithAttributes, spread.
  destruct (attributes !! "id") as [v|] eqn:Hid.
  - by apply lookup_union_Some_l.
  - rewrite lookup_union_r by done. apply lookup_singleton_eq.
Qed.

Lemma nodeWithAttributes_other id attributes k :
  k ≠ "id" → nodeWithAttributes id attributes !! k = attributes !! k.
Proof.
  intros Hk. unfold nodeWithAttributes, spread.
  destruct (attributes !! k) as [v|] eqn:Hv.
  - by apply lookup_union_Some_l.
  - rewrite lookup_union_r by done. by apply lookup_singleton_ne.
Qed.

(** C9, as stated, fails on the sword example: the attribute object of the
    node [attack] has an ["id"], and yet the [id] field of its neighbor
    record, and of its flattened node, equals the node's id, because the
    attribute holds that very id. *)
Lemma record_id_equals_node_id_with_id_attribute :
  ∃ attributes : Obj,
    getNodeAttributes swordGraph "attack" = inr attributes ∧
    attributes !! "id" = Some (JStr "attack") ∧
    (∃ records, getConnectedNodes swordGraph "sword_1" None = inr records ∧
       records !! 0%nat = Some (nodeWithAttributes "attack" attributes)) ∧
    (∃ out, graphologyToD3 swordGraph = inr out ∧
       nodes out !! 3%nat = Some (nodeWithAttributes "attack" attributes)) ∧
    get_prop (nodeWithAttributes "attack" attributes) "id" = JStr "attack" ∧
    ¬ (get_prop (nodeWithAttributes "attack" attributes) "id" = JStr "attack" →
       attributes !! "id" = None).
Proof.
  eexists. split; [reflexivity|]. split; [reflexivity|].
  split; [eexists; split; reflexivity|].
  split; [eexists; split; reflexivity|].
  split; [reflexivity|]. intros Honly. by specialize (Honly eq_refl).
Qed.

(** C9, amended.  The [id] field of a neighbor record, and of a flattened
    node, is the node's ["id"] attribute whenever the attribute object has
    one, in place of the node's id in the graph; it is the node's id when
    there is no such attribute.  The field equals the node's id exactly when
    there is no ["id"] attribute or the attribute holds the node's own id;
    and an attribute object yields records whose [id] is the id of their
    node, whatever that id is, only when it has no ["id"]. *)
Theorem record_id_is_id_attribute_if_present :
  (∀ id attributes,
     get_prop (nodeWithAttributes id attributes) "id"
     = match attributes !! "id" with Some v => v | None => JStr id end ∧
     (get_prop (nodeWithAttributes id attributes) "id" = JStr id
      ↔ attributes !! "id" = None ∨ attributes !! "id" = Some (JStr id))) ∧
  (∀ attributes,
     (∀ id, get_prop (nodeWithAttributes id attributes) "id" = JStr id)
     ↔ attributes !! "id" = None) ∧
  (∀ g nodeId direction records,
     getConnectedNodes g nodeId direction = inr records →
     ∃ ids, neighborFn g (default DirOut direction) nodeId = inr ids ∧
       Forall2 (λ id r, ∃ attrs, getNodeAttributes g id = inr attrs ∧
                  r = nodeWithAttributes id attrs ∧
                  get_prop r "id"
                  = match attrs !! "id" with Some v => v | None => JStr id end)
               ids records) ∧
  (∀ g, ∃ out, graphologyToD3 g = inr out ∧
     Forall2 (λ id r, ∃ attrs, getNodeAttributes g id = inr attrs ∧
                r = nodeWithAttributes id attrs ∧
                get_prop r "id"
                = match attrs !! "id" with Some v => v | None => JStr id end)
             (nodes_of g) (nodes out)).
Proof.
  assert (∀ id attributes,
     get_prop (nodeWithAttributes id attributes) "id"
     = match attributes !! "id" with Some v => v | None => JStr id end) as Hrule.
  { intros id attributes. unfold get_prop. by rewrite nodeWithAttributes_id. }
  split_and!.
  - intros id attributes. split; [apply Hrule|]. rewrite Hrule.
    destruct (attributes !! "id") as [v|]; split.
    + intros ->. by right.
    + by intros [?|[= ->]].
    + by left.
    + done.
  - intros attributes. split.
    + intros Hall. pose proof (Hall "a") as Ha. pose proof (Hall "b") as Hb.
      rewrite Hrule in Ha, Hb. destruct (attributes !! "id"); [congruence|done].
    + intros Hnone id. by rewrite Hrule, Hnone.
  - intros g nodeId direction records. unfold getConnectedNodes.
    destruct (neighborFn g (default DirOut direction) nodeId) as [e|ids]; cbn;
      [discriminate|].
    intros Hmap. exists ids. split; [reflexivity|].
    apply mapR_inr in Hmap. eapply Forall2_impl; [exact Hmap|].
    intros id r; cbn. destruct (getNodeAttributes g id) as [e|attrs]; cbn;
      [discriminate|].
    intros [= <-]. exists attrs. split_and!; [reflexivity|reflexivity|apply Hrule].
  - intros g. unfold graphologyToD3.
    destruct (mapR_total
      (λ id, attributes ← getNodeAttributes g id;
             mret (spread {[ "id" := JStr id ]} attributes)) (nodes_of g))
      as [ns Hns].
    { apply Forall_forall. intros id Hid.
      destruct (getNodeAttributes_listed g id Hid) as [attrs ->]. by eexists. }
    destruct (mapR_total
      (λ id, st ← extremities g id; attributes ← getEdgeAttributes g id;
             mret (spread {[ "source" := JStr st.1; "target" := JStr st.2 ]}
                          attributes)) (edges_of g))
      as [ls Hls].
    { apply Forall_forall. intros e He. unfold extremities, getEdgeAttributes, edgeData.
      unfold edges_of in He. apply list_elem_of_fmap in He as [x [-> Hx]].
      destruct (list_find_elem_of (λ y, y.1 = x.1) _ x Hx eq_refl) as [[i y] ->].
      cbn. by eexists. }
    rewrite Hns; cbn. rewrite Hls; cbn. eexists; split; [reflexivity|]. cbn.
    apply mapR_inr in Hns. eapply Forall2_impl; [exact Hns|].
    intros id r; cbn. destruct (getNodeAttributes g id) as [e|attrs]; cbn;
      [discriminate|].
    intros [= <-]. exists attrs. split_and!; [reflexivity|reflexivity|apply Hrule].
Qed.

Lemma record_id_is_id_attribute_if_present_witness :
  getConnectedNodes swordGraph "sword_1" None
  = inr [ nodeWithAttributes "attack" {[ "id" := JStr "attack"; "name" := JStr "Attack"; "type" := JStr "attribute" ]};
          nodeWithAttributes "speed" {[ "name" := JStr "Speed"; "type" := JStr "attribute" ]};
          nodeWithAttributes "normal" {[ "id" := JStr "normal"; "name" := JStr "Normal"; "type" := JStr "tier" ]};
          nodeWithAttributes "relic" {[ "id" := JStr "relic_v2"; "name" := JStr "Relic" ]};
          nodeWithAttributes "basic" {[ "id" := JStr "basic"; "name" := JStr "Basic"; "type" := JStr "set" ]} ] ∧
  ∃ ids, neighborFn swordGraph DirOut "sword_1" = inr ids ∧
    Forall2 (λ id r, ∃ attrs, getNodeAttributes swordGraph id = inr attrs ∧
               r = nodeWithAttributes id attrs ∧
               get_prop r "id"
               = match attrs !! "id" with Some v => v | None => JStr id end)
            ids
            [ nodeWithAttributes "attack" {[ "id" := JStr "attack"; "name" := JStr "Attack"; "type" := JStr "attribute" ]};
              nodeWithAttributes "speed" {[ "name" := JStr "Speed"; "type" := JStr "attribute" ]};
              nodeWithAttributes "normal" {[ "id" := JStr "normal"; "name" := JStr "Normal"; "type" := JStr "tier" ]};
              nodeWithAttributes "relic" {[ "id" := JStr "relic_v2"; "name" := JStr "Relic" ]};
              nodeWithAttributes "basic" {[ "id" := JStr "basic"; "name" := JStr "Basic"; "type" := JStr "set" ]} ].
Proof.
  split; [vm_compute; reflexivity|].
  apply (proj1 (proj2 (proj2 record_id_is_id_attribute_if_present))
           swordGraph "sword_1" None).
  vm_compute. reflexivity.
Defined.

(** C10. Leaving the direction out is asking for the outgoing direction:
    both helpers then read the out-neighbors, and nothing else of the
    store's neighbor queries. *)
Theorem default_direction_is_outgoing g nodeId :
  getConnectedNodes g nodeId None = getConnectedNodes g nodeId (Some DirOut) ∧
  groupConnectedNodesByType g nodeId None
  = groupConnectedNodesByType g nodeId (Some DirOut) ∧
  getConnectedNodes g nodeId None
  = (ids ← outNeighbors g nodeId;
     mapR (λ id, attributes ← getNodeAttributes g id;
                 mret (nodeWithAttributes id attributes)) ids) ∧
  (∀ inN bothN,
     let g' := mkGraph (nodeEntries g) (edgeEntries g) (outNeighbors g) inN bothN in
     getConnectedNodes g' nodeId None = getConnectedNodes g nodeId None ∧
     groupConnectedNodesByType g' nodeId None
     = groupConnectedNodesByType g nodeId None).
Proof. split_and!; try reflexivity. intros inN bothN; split; reflexivity. Qed.

(** *** Grouping *)

Lemma groupNode_lookup grouped node grouped' k :
  groupNode grouped node = inr grouped' →
  grouped' !! k = if decide (k = groupKey node)
                  then Some (default [] (grouped !! k) ++ [node])
                  else grouped !! k.
Proof.
  unfold groupNode.
  destruct (grouped !! groupKey node) as [arr|] eqn:Hown.
  - intros [= <-]. case_decide as Hk.
    + subst k. rewrite lookup_insert_eq, Hown. reflexivity.
    + by rewrite lookup_insert_ne.
  - destruct (inherited (groupKey node)); [discriminate|].
    intros [= <-]. case_decide as Hk.
    + subst k. rewrite lookup_insert_eq, Hown. reflexivity.
    + by rewrite lookup_insert_ne.
Qed.

(** What the grouping loop returns, when it returns: under each key, the
    records filed under that key, in the order of the neighbor list. *)
Lemma foldR_groupNode_lookup connected grouped grouped' k :
  foldR groupNode grouped connected = inr grouped' →
  grouped' !! k
  = match filter (λ n, groupKey n = k) connected with
    | [] => grouped !! k
    | n :: grp => Some (default [] (grouped !! k) ++ n :: grp)
    end.
Proof.
  revert grouped. induction connected as [|node connected IH]; intros grouped; cbn.
  - by intros [= <-].
  - destruct (groupNode grouped node) as [e|g1] eqn:Hstep; cbn; [discriminate|].
    intros Hrest. rewrite (IH _ Hrest). rewrite (groupNode_lookup _ _ _ k Hstep).
    destruct (decide (k = groupKey node)) as [->|Hk].
    + rewrite decide_True by done.
      destruct (filter _ connected) as [|n grp]; cbn; [done|].
      by rewrite <- app_assoc.
    + rewrite decide_False by done. done.
Qed.

Lemma groupConnectedNodesByType_partition g nodeId direction connected grouped :
  getConnectedNodes g nodeId direction = inr connected →
  groupConnectedNodesByType g nodeId direction = inr grouped →
  ∀ k, grouped !! k
       = match filter (λ n, groupKey n = k) connected with
         | [] => None
         | n :: grp => Some (n :: grp)
         end.
Proof.
  unfold groupConnectedNodesByType. intros ->; cbn. intros Hfold k.
  rewrite (foldR_groupNode_lookup _ _ _ k Hfold), lookup_empty.
  by destruct (filter _ connected).
Qed.

(** The loop returns when no record is filed under a name that
    [Object.prototype] defines ... *)
Lemma foldR_groupNode_returns connected grouped :
  Forall (λ n, inherited (groupKey n) = false) connected →
  ∃ grouped', foldR groupNode grouped connected = inr grouped'.
Proof.
  intros Hall. revert grouped.
  induction Hall as [|node connected Hnode _ IH]; intros grouped;
    [by eexists|].
  assert (∃ g1, groupNode grouped node = inr g1) as [g1 Hg1].
  { unfold groupNode. rewrite Hnode.
    destruct (grouped !! groupKey node); by eexists. }
  change (foldR groupNode grouped (node :: connected))
    with (b ← groupNode grouped node; foldR groupNode b connected).
  rewrite Hg1. apply IH.
Qed.

(** ... and throws as soon as one is. *)
Lemma foldR_groupNode_throws connected grouped :
  (∀ k, inherited k = true → grouped !! k = None) →
  Exists (λ n, inherited (groupKey n) = true) connected →
  foldR groupNode grouped connected
  = inl (TypeError "grouped[type].push is not a function").
Proof.
  intros Hown Hex. revert grouped Hown.
  induction connected as [|node connected IH]; intros grouped Hown;
    [by apply Exists_nil in Hex|].
  change (foldR groupNode grouped (node :: connected))
    with (b ← groupNode grouped node; foldR groupNode b connected).
  destruct (inherited (groupKey node)) eqn:Hnode.
  - unfold groupNode. by rewrite (Hown _ Hnode), Hnode.
  - apply Exists_cons in Hex as [Hex|Hex]; [congruence|].
    destruct (groupNode grouped node) as [e|g1] eqn:Hstep; cbn.
    { unfold groupNode in Hstep. rewrite Hnode in Hstep.
      by destruct (grouped !! groupKey node). }
    apply IH; [exact Hex|]. intros k Hk.
    rewrite (groupNode_lookup _ _ _ k Hstep).
    rewrite decide_False by congruence. by apply Hown.
Qed.

(** C5, at a neighbor whose type is the word "constructor".  The node
    [Widget] has two out-neighbors; the second is filed under
    ["constructor"], [grouped["constructor"]] is the inherited function
    [Object], no array is stored, and the [push] that follows throws: no
    grouping is returned. *)
Theorem groupConnectedNodesByType_throws_on_constructor_type :
  getConnectedNodes classGraph "Widget" (Some DirOut)
  = inr [ nodeWithAttributes "Widget.render" {[ "type" := JStr "method" ]};
          nodeWithAttributes "Widget.new" {[ "type" := JStr "constructor" ]} ] ∧
  groupConnectedNodesByType classGraph "Widget" (Some DirOut)
  = inl (TypeError "grouped[type].push is not a function").
Proof. split; vm_compute; reflexivity. Qed.

(** ** Batch processor *)

Section BatchFacts.
Context {W C TInput : Type}.
Variable store : C → W → option DirectedGraph.

Lemma for_of_invoke (processFn : string → M W unit) ids st st' r :
  for_of ids (λ node, invoke (E:=string) (λ _, node) (processFn node)) st = (st', r) →
  ∃ called, trace st' = trace st ++ called ∧ called `prefix_of` ids ∧
            (r = inr tt → called = ids) ∧
            ((∀ id w, (processFn id w).2 = inr tt) → r = inr tt).
Proof.
  revert st. induction ids as [|id ids IH]; intros st; cbn.
  - intros [= <- <-]. exists []. by rewrite app_nil_r.
  - unfold mbind, M_bind, bind, invoke.
    destruct (processFn id (world st)) as [w' [e|[]]] eqn:Hcall.
    + intros [= <- <-]. exists [id]. split_and!; [done| |done|].
      * by apply prefix_cons, prefix_nil.
      * intros Hok. specialize (Hok id (world st)). by rewrite Hcall in Hok.
    + intros Hrest. apply IH in Hrest as (called & Htr & Hpre & Hall & Hok).
      cbn in Htr. exists (id :: called). split_and!.
      * by rewrite Htr, <- app_assoc.
      * by apply prefix_cons.
      * intros Hr. by rewrite Hall.
      * exact Hok.
Qed.

(** The world of a traced loop is the one its calls lead to, and the error
    it throws is the one the last call threw. *)
Lemma for_of_invoke_world (processFn : string → M W unit) ids st st' r :
  for_of ids (λ node, invoke (E:=string) (λ _, node) (processFn node)) st = (st', r) →
  (r = inr tt → actionsLead processFn ids (world st) (world st')) ∧
  (∀ e, r = inl e →
     ∃ called id w1, trace st' = trace st ++ called ++ [id] ∧
       actionsLead processFn called (world st) w1 ∧
       processFn id w1 = (world st', inl e)).
Proof.
  revert st. induction ids as [|id ids IH]; intros st; cbn.
  - intros [= <- <-]. split; [done|]. intros e [=].
  - unfold mbind, M_bind, bind, invoke.
    destruct (processFn id (world st)) as [w' [e|[]]] eqn:Hcall.
    + intros [= <- <-]. split; [intros [=]|]. intros e' [= <-].
      exists [], id, (world st). by split_and!.
    + intros Hrest. apply IH in Hrest as [Hret Hthrow]. cbn in Hret, Hthrow.
      split.
      * intros Hr. exists w'. split; [done|]. by apply Hret.
      * intros e He. destruct (Hthrow e He) as (called & id' & w1 & Htr & Hlead & Hcall').
        exists (id :: called), id', w1. split_and!; [|by exists w'|done].
        rewrite Htr. by rewrite <- !app_assoc.
Qed.

Lemma filterNodes_accepted g (nodeFilter : string → Obj → bool) :
  Forall (λ id, ∃ attrs, (id, attrs) ∈ nodeEntries g ∧ nodeFilter id attrs = true)
         (filterNodes g nodeFilter).
Proof.
  apply Forall_forall. intros id Hid. unfold filterNodes in Hid.
  apply list_elem_of_fmap in Hid as [[id' attrs] [-> Hin]].
  apply list_elem_of_filter in Hin as [Hacc Hin]. by exists attrs.
Qed.

(** C7. A batch step calls the action on the nodes the predicate accepts, in
    the store's node order, each once and no other node: the calls made are
    an initial part of that list, all of it when the step returns; the step
    returns the empty value, and it does return when the action never
    throws.  The calls are made for their effect, each on the world the
    previous one left: when the step returns, the world it leaves is the one
    the action leads to over all the accepted nodes; when it throws, the
    action returned on the nodes before the last one called, and its call on
    that last node threw the error of the step and left the world of the
    step. *)
Theorem batch_processor_invocations nodeFilter processFn (input : TInput)
    context w g st r :
  contextGraph store context w = inr g →
  createBatchProcessor store nodeFilter processFn input context (mkTraced w []) = (st, r) →
  trace st `prefix_of` filterNodes g nodeFilter ∧
  Forall (λ id, ∃ attrs, (id, attrs) ∈ nodeEntries g ∧ nodeFilter id attrs = true)
         (trace st) ∧
  (r = inr tt → trace st = filterNodes g nodeFilter) ∧
  ((∀ id w', (processFn id context w').2 = inr tt) →
   r = inr tt ∧ trace st = filterNodes g nodeFilter) ∧
  (r = inr tt →
   actionsLead (λ id, processFn id context) (filterNodes g nodeFilter) w (world st)) ∧
  (∀ e, r = inl e →
     ∃ called id w1, trace st = called ++ [id] ∧
       actionsLead (λ id, processFn id context) called w w1 ∧
       processFn id context w1 = (world st, inl e)).
Proof.
  intros Hg. unfold createBatchProcessor, readWorld.
  unfold mbind at 1; unfold M_bind, bind. cbn [world]. rewrite Hg. cbn.
  intros Hrun.
  pose proof (for_of_invoke_world (λ id, processFn id context) _ _ _ _ Hrun)
    as [Hret Hthrow].
  apply (for_of_invoke (λ id, processFn id context)) in Hrun
    as (called & Htr & Hpre & Hall & Hok).
  cbn in Htr, Hret, Hthrow. subst called. split_and!; [done| |done| |done|done].
  - eapply Forall_forall. intros id Hid.
    pose proof (filterNodes_accepted g nodeFilter) as Hacc.
    rewrite Forall_forall in Hacc. apply Hacc.
    destruct Hpre as [rest ->]. apply elem_of_app. by left.
  - intros Hnothrow. split; [by apply Hok|]. apply Hall. by apply Hok.
Qed.
End BatchFacts.

Lemma batch_processor_invocations_witness :
  contextGraph theStore graphContext swordGraph = inr swordGraph ∧
  filterNodes swordGraph isItem = ["sword_1"] ∧
  (createBatchProcessor theStore isItem doubleValue tt graphContext
     (mkTraced swordGraph [])).2 = inr tt ∧
  trace (createBatchProcessor theStore isItem doubleValue tt graphContext
           (mkTraced swordGraph [])).1 = filterNodes swordGraph isItem ∧
  actionsLead (λ id, doubleValue id graphContext) (filterNodes swordGraph isItem)
    swordGraph
    (world (createBatchProcessor theStore isItem doubleValue tt graphContext
              (mkTraced swordGraph [])).1).
Proof.
  split; [reflexivity|]. split; [reflexivity|].
  destruct (batch_processor_invocations theStore isItem doubleValue tt graphContext
              swordGraph swordGraph _ _ eq_refl (surjective_pairing _))
    as (_ & _ & _ & Hok & Hlead & _).
  destruct Hok as [Hr Htr]; [intros id w'; reflexivity|].
  split_and!; [exact Hr|exact Htr|exact (Hlead Hr)].
Defined.

(** ** The ES Map *)

Section JsMapFacts.
Context {V : Type}.
Implicit Types (m : JsMap V) (k : JsVal) (v : V).

Lemma jsmap_get_set m k v k' :
  jsmap_get (jsmap_set m k v) k' = if decide (k = k') then Some v else jsmap_get m k'.
Proof.
  induction m as [|[k0 v0] m IH]; cbn.
  - repeat case_decide; congruence.
  - destruct (decide (k0 = k)) as [->|Hne]; cbn.
    + repeat case_decide; congruence.
    + rewrite IH. repeat case_decide; congruence.
Qed.

Lemma jsmap_has_get m k : jsmap_has m k = true ↔ is_Some (jsmap_get m k).
Proof.
  unfold jsmap_has. destruct (jsmap_get m k); split; done.
Qed.

Lemma jsmap_keys_get m k : k ∈ jsmap_keys m ↔ is_Some (jsmap_get m k).
Proof.
  unfold jsmap_keys. induction m as [|[k0 v0] m IH]; cbn.
  - split; [by intros ?%elem_of_nil|by intros [? ?]].
  - rewrite elem_of_cons, IH. destruct (decide (k0 = k)) as [->|Hne].
    + split; [by eexists|by left].
    + split; [by intros [->|?]|by right].
Qed.

Lemma jsmap_keys_set_new m k v :
  jsmap_get m k = None → jsmap_keys (jsmap_set m k v) = jsmap_keys m ++ [k].
Proof.
  unfold jsmap_keys. induction m as [|[k0 v0] m IH]; cbn; [done|].
  case_decide; [done|]. intros Hk. cbn. by rewrite IH.
Qed.

Lemma jsmap_set_same m k v : jsmap_get m k = Some v → jsmap_set m k v = m.
Proof.
  induction m as [|[k0 v0] m IH]; cbn; [done|].
  case_decide; [congruence|]. intros Hk. by rewrite IH.
Qed.
End JsMapFacts.

(** ** First-seen order *)

Lemma firstSeen_NoDup seen xs : NoDup seen → NoDup (seen ++ firstSeen seen xs).
Proof.
  revert seen. induction xs as [|x xs IH]; intros seen Hseen; cbn.
  - by rewrite app_nil_r.
  - case_decide as Hx; [by apply IH|].
    rewrite cons_middle, (assoc_L (++) seen [x]). apply IH.
    apply NoDup_app. split_and!; [done| |apply NoDup_singleton].
    intros y Hy ->%list_elem_of_singleton. done.
Qed.

Lemma firstSeen_elem_of seen xs x :
  x ∈ seen ++ firstSeen seen xs ↔ x ∈ seen ∨ x ∈ xs.
Proof.
  revert seen. induction xs as [|y xs IH]; intros seen; cbn.
  - rewrite app_nil_r. set_solver.
  - case_decide as Hy.
    + rewrite IH. set_solver.
    + rewrite cons_middle, (assoc_L (++) seen [y]), IH. set_solver.
Qed.

(** A source enters the order the first time it shows up, and only then. *)
Lemma firstSeen_snoc seen xs x :
  firstSeen seen (xs ++ [x])
  = firstSeen seen xs ++ (if decide (x ∈ seen ∨ x ∈ xs) then [] else [x]).
Proof.
  revert seen. induction xs as [|y xs IH]; intros seen; cbn.
  - destruct (decide (x ∈ seen)) as [Hx|Hx].
    + rewrite decide_True; [done|by left].
    + rewrite decide_False; [done|]. intros [?|?%elem_of_nil]; done.
  - destruct (decide (y ∈ seen)) as [Hy|Hy]; rewrite IH; cbn.
    + f_equal. apply decide_ext. rewrite elem_of_cons.
      split; [intros [?|?]; auto|]. intros [?|[->|?]]; auto.
    + f_equal. f_equal. apply decide_ext.
      rewrite elem_of_app, !elem_of_cons, elem_of_nil. tauto.
Qed.

(** ** Link aggregator *)

Section AggregatorFacts.
Context {W TItem : Type}.
Variable rows : GraphOutput.
Variable nodeFilter : option (Obj → bool).
Variable createEmptyItem : M W TItem.
Variable populateItemFromNode : TItem → Obj → M W unit.
Variable processLink : TItem → Obj → option Obj → M W unit.
Variable generateMarkdown : JsMap TItem → M W unit.

Local Abbreviation scanLink' :=
  (scanLink rows nodeFilter createEmptyItem populateItemFromNode processLink).
Local Abbreviation scanLinks' :=
  (scanLinks rows nodeFilter createEmptyItem populateItemFromNode processLink).
Local Abbreviation run :=
  (graphologyToMD rows nodeFilter createEmptyItem populateItemFromNode
     processLink generateMarkdown).
Local Abbreviation findSource := (findSourceNode rows nodeFilter).
Local Abbreviation findTarget := (findTargetNode rows).
Local Abbreviation St := (Traced W (@MdEvent TItem)).
Local Abbreviation lead :=
  (callsLead createEmptyItem populateItemFromNode processLink generateMarkdown).

Implicit Types (items : JsMap TItem) (row : Obj) (st : St).

(** One link, scanned to the end: the record is the one the mapping had for
    the source, or a new one, created and populated from the source node. *)
Lemma scanLink_inr items row st st' items' :
  scanLink' items row st = (st', inr items') →
  let source := get_prop row "source" in
  let targetNode := findTarget (get_prop row "target") in
  ∃ data, items' = jsmap_set items source data ∧
    ((jsmap_get items source = Some data ∧
      trace st' = trace st ++ [EvProcessLink data row targetNode]) ∨
     (jsmap_get items source = None ∧
      ∃ node, findSource source = Some node ∧
        trace st' = trace st ++ [EvCreateEmptyItem (inr data);
                                 EvPopulateItemFromNode data node;
                                 EvProcessLink data row targetNode])).
Proof.
  unfold scanLink, itemFor, mbind, M_bind, bind, invoke, ret, throw. cbn.
  destruct (jsmap_get items (get_prop row "source")) as [data|] eqn:Hget.
  - destruct (processLink data row _ (world st)) as [w' [e|[]]]; [done|].
    intros [= <- <-]. exists data. split; [done|]. left. done.
  - destruct (findSource (get_prop row "source")) as [node|] eqn:Hfind; [|done].
    destruct (createEmptyItem (world st)) as [w1 [e|data]]; [done|]. cbn.
    destruct (populateItemFromNode data node w1) as [w2 [e|[]]]; [done|]. cbn.
    destruct (processLink data row _ w2) as [w3 [e|[]]]; [done|].
    intros [= <- <-]. exists data. split; [done|]. right. split; [done|].
    exists node. split; [done|]. cbn. by rewrite <- !app_assoc.
Qed.

(** Whatever its outcome, scanning a link never calls the sink. *)
Lemma scanLink_no_sink items row st st' r :
  scanLink' items row st = (st', r) →
  ∃ evs, trace st' = trace st ++ evs ∧ Forall (λ ev, isSinkCall ev = false) evs.
Proof.
  unfold scanLink, itemFor, mbind, M_bind, bind, invoke, ret, throw. cbn.
  destruct (jsmap_get items (get_prop row "source")) as [data|].
  - destruct (processLink data row _ (world st)) as [w' [e|[]]];
      intros [= <- <-]; eexists; (split; [reflexivity|]); by repeat constructor.
  - destruct (findSource (get_prop row "source")) as [node|].
    2:{ intros [= <- <-]. exists []. by rewrite app_nil_r. }
    destruct (createEmptyItem (world st)) as [w1 [e|data]]; cbn.
    { intros [= <- <-]; eexists; (split; [reflexivity|]); by repeat constructor. }
    destruct (populateItemFromNode data node w1) as [w2 [e|[]]]; cbn.
    { intros [= <- <-]; eexists; cbn; (split; [by rewrite <- app_assoc|]);
        by repeat constructor. }
    destruct (processLink data row _ w2) as [w3 [e|[]]];
      intros [= <- <-]; eexists; cbn;
      (split; [by rewrite <- !app_assoc|]); by repeat constructor.
Qed.

Lemma scanLinks_no_sink ls items st st' r :
  scanLinks' items ls st = (st', r) →
  ∃ evs, trace st' = trace st ++ evs ∧ Forall (λ ev, isSinkCall ev = false) evs.
Proof.
  revert items st. induction ls as [|row ls IH]; intros items st; cbn.
  - intros [= <- <-]. exists []. by rewrite app_nil_r.
  - unfold mbind, M_bind, bind.
    destruct (scanLink' items row st) as [st1 [e|items1]] eqn:Hrow;
      apply scanLink_no_sink in Hrow as (evs1 & Htr1 & Hevs1).
    + intros [= <- <-]. by exists evs1.
    + intros Hrest. apply IH in Hrest as (evs2 & Htr2 & Hevs2).
      exists (evs1 ++ evs2). split; [by rewrite Htr2, Htr1, <- app_assoc|].
      by apply Forall_app.
Qed.

(** A scan that reaches the end of [ls]: the keys it adds, in order; the
    records it keeps; the calls it makes. *)
Lemma scanLinks_inr ls items st st' items' :
  scanLinks' items ls st = (st', inr items') →
  jsmap_keys items' = jsmap_keys items ++ firstSeen (jsmap_keys items) (linkSources ls) ∧
  (∀ k v, jsmap_get items k = Some v → jsmap_get items' k = Some v) ∧
  trace st' = trace st ++ expectedCalls rows nodeFilter items' (jsmap_keys items) ls.
Proof.
  revert items st. induction ls as [|row ls IH]; intros items st; cbn.
  - intros [= <- <-]. by rewrite !app_nil_r.
  - unfold mbind, M_bind, bind.
    destruct (scanLink' items row st) as [st1 [e|items1]] eqn:Hrow; [done|].
    intros Hrest. apply IH in Hrest as (Hkeys & Hkeep & Htr).
    apply scanLink_inr in Hrow as (data & -> & Hcase).
    assert (jsmap_get items' (get_prop row "source") = Some data) as Hdata.
    { apply Hkeep. rewrite jsmap_get_set. by rewrite decide_True. }
    rewrite Hdata.
    destruct Hcase as [[Hold Htr1]|[Hnew (node & Hnode & Htr1)]].
    + rewrite jsmap_set_same in * by done.
      assert (get_prop row "source" ∈ jsmap_keys items) as Hin.
      { apply jsmap_keys_get. by eexists. }
      rewrite !decide_True by done. split_and!; [done|done|].
      rewrite Htr, Htr1. cbn. by rewrite <- app_assoc.
    + assert (get_prop row "source" ∉ jsmap_keys items) as Hnin.
      { rewrite jsmap_keys_get, Hnew. by intros [? ?]. }
      rewrite jsmap_keys_set_new in * by done.
      rewrite !decide_False by done. rewrite Hnode. split_and!.
      * by rewrite Hkeys, <- app_assoc.
      * intros k v Hk. apply Hkeep. rewrite jsmap_get_set.
        case_decide; [congruence|done].
      * rewrite Htr, Htr1. cbn. by rewrite <- !app_assoc.
Qed.

(** Every key of the mapping names a node the source lookup finds. *)
Lemma scanLinks_sources_found ls items st st' items' :
  scanLinks' items ls st = (st', inr items') →
  (∀ k, is_Some (jsmap_get items k) → is_Some (findSource k)) →
  (∀ k, is_Some (jsmap_get items' k) → is_Some (findSource k)) ∧
  (∀ row, row ∈ ls → is_Some (findSource (get_prop row "source"))).
Proof.
  revert items st. induction ls as [|row ls IH]; intros items st; cbn.
  - intros [= <- <-] Hinv. split; [done|]. by intros ? ?%elem_of_nil.
  - unfold mbind, M_bind, bind.
    destruct (scanLink' items row st) as [st1 [e|items1]] eqn:Hrow; [done|].
    intros Hrest Hinv.
    apply scanLink_inr in Hrow as (data & -> & Hcase).
    assert (is_Some (findSource (get_prop row "source"))) as Hsrc.
    { destruct Hcase as [[Hold _]|[_ (node & Hnode & _)]]; [|by eexists].
      apply Hinv. by eexists. }
    apply IH in Hrest as [Hinv' Hrows].
    + split; [done|]. intros row' [->|Hin]%elem_of_cons; [done|by apply Hrows].
    + intros k. rewrite jsmap_get_set. case_decide as Hk; [by subst k|apply Hinv].
Qed.

Lemma scanLink_missing_source items row st :
  jsmap_get items (get_prop row "source") = None →
  findSource (get_prop row "source") = None →
  scanLink' items row st = (st, inl (noNodeFound row)).
Proof.
  intros Hget Hfind.
  unfold scanLink, itemFor, mbind, M_bind, bind, throw. by rewrite Hget, Hfind.
Qed.

Lemma foldedLinks_expectedCalls items seen ls :
  (∀ row, row ∈ ls → is_Some (jsmap_get items (get_prop row "source"))) →
  foldedLinks (expectedCalls rows nodeFilter items seen ls) = ls.
Proof.
  revert seen. induction ls as [|row ls IH]; intros seen Hall; [done|]. cbn.
  destruct (Hall row) as [data ->]; [by left|].
  unfold foldedLinks in *. rewrite omap_app. cbn. rewrite IH.
  - by repeat case_match.
  - intros row' Hin. apply Hall. by right.
Qed.

Lemma sinkCalls_no_sink (evs : list (@MdEvent TItem)) :
  Forall (λ ev, isSinkCall ev = false) evs → sinkCalls evs = [].
Proof.
  induction 1 as [|ev evs Hev _ IH]; [done|].
  unfold sinkCalls in *. cbn. rewrite IH. by destruct ev.
Qed.

(** A run that returns: the scan reached the end of the links, and the sink
    was then called with the mapping. *)
Lemma run_inr w st :
  run (mkTraced w []) = (st, inr tt) →
  ∃ items st1,
    scanLinks' [] (links rows) (mkTraced w []) = (st1, inr items) ∧
    trace st = trace st1 ++ [EvGenerateMarkdown items] ∧
    generateMarkdown items (world st1) = (world st, inr tt).
Proof.
  unfold graphologyToMD, mbind, M_bind, bind, invoke.
  destruct (scanLinks' [] (links rows) (mkTraced w [])) as [st1 [e|items]];
    [done|].
  destruct (generateMarkdown items (world st1)) as [w' [e|[]]] eqn:Hsink; [done|].
  intros [= <-]. by exists items, st1.
Qed.

(** The calls of a scan are made for their effect: the world a link, and a
    list of links, leaves is the one its calls lead to. *)
Lemma callsLead_app evs1 evs2 (w w1 w2 : W) :
  lead evs1 w w1 → lead evs2 w1 w2 → lead (evs1 ++ evs2) w w2.
Proof.
  revert w. induction evs1 as [|ev evs1 IH]; intros w; cbn.
  - by intros ->.
  - intros (w' & Hev & Hrest) Hevs2. exists w'. split; [done|]. by apply IH.
Qed.

Lemma scanLink_world items row st st' items' evs :
  scanLink' items row st = (st', inr items') →
  trace st' = trace st ++ evs →
  lead evs (world st) (world st').
Proof.
  unfold scanLink, itemFor, mbind, M_bind, bind, invoke, ret, throw. cbn.
  destruct (jsmap_get items (get_prop row "source")) as [data|].
  - destruct (processLink data row _ (world st)) as [w' [e|[]]] eqn:Hfold; [done|].
    intros [= <- <-]. cbn. intros <-%app_inv_head. cbn. by exists w'.
  - destruct (findSource (get_prop row "source")) as [node|]; [|done].
    destruct (createEmptyItem (world st)) as [w1 [e|data]] eqn:Hnew; [done|]. cbn.
    destruct (populateItemFromNode data node w1) as [w2 [e|[]]] eqn:Hfill; [done|].
    cbn.
    destruct (processLink data row _ w2) as [w3 [e|[]]] eqn:Hfold; [done|].
    intros [= <- <-]. cbn. rewrite <- !app_assoc. intros <-%app_inv_head. cbn.
    exists w1. split; [by exists data|]. exists w2. split; [done|]. by exists w3.
Qed.

Lemma scanLinks_world ls items st st' items' evs :
  scanLinks' items ls st = (st', inr items') →
  trace st' = trace st ++ evs →
  lead evs (world st) (world st').
Proof.
  revert items st evs. induction ls as [|row ls IH]; intros items st evs; cbn.
  - intros [= <- <-]. rewrite <- (app_nil_r (trace st)) at 1.
    by intros <-%app_inv_head.
  - unfold mbind, M_bind, bind.
    destruct (scanLink' items row st) as [st1 [e|items1]] eqn:Hrow; [done|].
    intros Hrest Htr.
    pose proof Hrow as (evs1 & Htr1 & _)%scanLink_no_sink.
    pose proof Hrest as (evs2 & Htr2 & _)%scanLinks_no_sink.
    assert (evs = evs1 ++ evs2) as ->.
    { apply (app_inv_head (trace st)). by rewrite <- Htr, Htr2, Htr1, <- app_assoc. }
    eapply callsLead_app; [by eapply scanLink_world|by eapply IH].
Qed.

(** The source lookup finds nothing exactly when the filter rejects every
    node that has the id (which is so when no node has it). *)
Lemma findSourceNode_None source :
  findSource source = None
  ↔ ∀ n, n ∈ nodes rows → get_prop n "id" = source →
         ∃ f, nodeFilter = Some f ∧ f n = false.
Proof.
  unfold findSourceNode, strict_eq. split.
  - intros Hnone n Hn%list_elem_of_In Hid.
    apply (find_none _ _ Hnone) in Hn. rewrite bool_decide_eq_true_2 in Hn by done.
    cbn in Hn. destruct nodeFilter as [f|]; [by exists f|done].
  - intros Hall. destruct (find _ _) as [n|] eqn:Hfind; [|done].
    apply find_some in Hfind as [Hn%list_elem_of_In Hacc].
    destruct (decide (get_prop n "id" = source)) as [Hid|Hid].
    + rewrite bool_decide_eq_true_2 in Hacc by done. cbn in Hacc.
      destruct (Hall n Hn Hid) as (f & Hf & Hrej). rewrite Hf in Hacc. congruence.
    + by rewrite bool_decide_eq_false_2 in Hacc.
Qed.

(** C1. When a link names a source that the source lookup does not find
    (no node has the id, or the filter rejects every node that has it), the
    run throws and the sink is not called; if the links before it were
    scanned to the end, what is thrown is the error naming that link's source
    and target, thrown at once: the world and the trace are those the scan
    of the earlier links left. *)
Theorem missing_source_node_aborts pre row post w :
  links rows = pre ++ row :: post →
  (∀ n, n ∈ nodes rows → get_prop n "id" = get_prop row "source" →
        ∃ f, nodeFilter = Some f ∧ f n = false) →
  (∃ e, (run (mkTraced w [])).2 = inl e) ∧
  Forall (λ ev, isSinkCall ev = false) (trace (run (mkTraced w [])).1) ∧
  (∀ st1 items1,
     scanLinks' [] pre (mkTraced w []) = (st1, inr items1) →
     run (mkTraced w []) = (st1, inl (noNodeFound row))).
Proof.
  intros Hlinks Hmissing%findSourceNode_None.
  unfold graphologyToMD, mbind, M_bind, bind.
  destruct (scanLinks' [] (links rows) (mkTraced w [])) as [st' [e|items]] eqn:Hscan.
  - cbn. split; [by eexists|]. split.
    + apply scanLinks_no_sink in Hscan as (evs & -> & Hevs). done.
    + intros st1 items1 Hpre. rewrite Hlinks in Hscan.
      unfold scanLinks in Hscan, Hpre. rewrite foldM_app in Hscan.
      unfold mbind, M_bind, bind in Hscan. rewrite Hpre in Hscan.
      cbn in Hscan. unfold mbind, M_bind, bind in Hscan.
      rewrite scanLink_missing_source in Hscan; [congruence| |done].
      apply scanLinks_sources_found in Hpre as [Hfound _].
      * destruct (jsmap_get items1 (get_prop row "source")) eqn:Hget; [|done].
        destruct (Hfound (get_prop row "source")) as [node Hnode]; [by eexists|].
        congruence.
      * by intros k [? ?].
  - exfalso. apply scanLinks_sources_found in Hscan as [_ Hrows].
    + destruct (Hrows row) as [node Hnode]; [|congruence].
      rewrite Hlinks. apply elem_of_app. right. by left.
    + by intros k [? ?].
Qed.

(** C2. After a run that returns, the mapping handed to the sink has one
    entry per distinct link source and no other entry; its record is the one
    the factory returned at the first link with that source, where it was
    populated from the source node, and every link was folded into the
    record of its source: the calls made are exactly [expectedCalls].  These
    calls are made for their effect, each on the world the previous one
    left: the factory did return the record named, the populate and fold
    functions did act on it and return, and the world the run leaves is the
    one the calls lead to from the initial world. *)
Theorem one_record_per_link_source w st :
  run (mkTraced w []) = (st, inr tt) →
  ∃ items,
    trace st = expectedCalls rows nodeFilter items [] (links rows)
               ++ [EvGenerateMarkdown items] ∧
    jsmap_keys items = firstSeen [] (linkSources (links rows)) ∧
    NoDup (jsmap_keys items) ∧
    (∀ k, is_Some (jsmap_get items k)
          ↔ ∃ row, row ∈ links rows ∧ get_prop row "source" = k) ∧
    callsLead createEmptyItem populateItemFromNode processLink generateMarkdown
      (expectedCalls rows nodeFilter items [] (links rows)
       ++ [EvGenerateMarkdown items]) w (world st).
Proof.
  intros (items & st1 & Hscan & Htr & Hsink)%run_inr.
  pose proof Hscan as Hworld.
  apply scanLinks_inr in Hscan as (Hkeys & _ & Htr1). cbn in Hkeys, Htr1.
  exists items. split_and!.
  5:{ eapply callsLead_app.
      - by apply (scanLinks_world _ _ _ _ _ _ Hworld).
      - cbn. by exists (world st). }
  - by rewrite Htr, Htr1.
  - done.
  - rewrite Hkeys. apply (firstSeen_NoDup []), NoDup_nil_2.
  - intros k. rewrite <- jsmap_keys_get, Hkeys.
    rewrite (firstSeen_elem_of [] (linkSources (links rows)) k).
    unfold linkSources. rewrite list_elem_of_fmap, elem_of_nil. naive_solver.
Qed.

(** C6. Once the record of a link is at hand, the target node is looked up
    by id alone (it is what the source lookup would find without a filter,
    whatever filter was supplied), the fold function is called with the
    record, the link and what was found (nothing, when no node has that id),
    and the outcome of the link is the outcome of that call: the aggregator
    adds no failure of its own. *)
Theorem target_lookup_by_id_only items row st st1 data :
  itemFor rows nodeFilter createEmptyItem populateItemFromNode items row st
  = (st1, inr data) →
  let target := get_prop row "target" in
  let targetNode := findTarget target in
  scanLink' items row st
  = (let '(w', r) := processLink data row targetNode (world st1) in
     (mkTraced w' (trace st1 ++ [EvProcessLink data row targetNode]),
      match r with
      | inr _ => inr (jsmap_set items (get_prop row "source") data)
      | inl e => inl e
      end)) ∧
  targetNode = findSourceNode rows None target ∧
  (targetNode = None ↔ ∀ n, n ∈ nodes rows → get_prop n "id" ≠ target) ∧
  (∀ n, targetNode = Some n → n ∈ nodes rows ∧ get_prop n "id" = target).
Proof.
  intros Hitem target targetNode. split_and!.
  - unfold scanLink. unfold mbind at 1; unfold M_bind, bind. rewrite Hitem.
    unfold mbind, M_bind, bind, invoke, ret. fold target. fold targetNode.
    by destruct (processLink data row targetNode (world st1)) as [w' [e|[]]].
  - unfold targetNode, findTargetNode, findSourceNode.
    induction (nodes rows) as [|n ns IH]; [done|]. cbn.
    destruct (strict_eq (get_prop n "id") target); cbn; [done|apply IH].
  - unfold targetNode, findTargetNode, strict_eq. split.
    + intros Hnone n Hn%list_elem_of_In.
      apply (find_none _ _ Hnone) in Hn. by apply bool_decide_eq_false in Hn.
    + intros Hall. destruct (find _ _) as [n|] eqn:Hfind; [|done].
      apply find_some in Hfind as [Hn%list_elem_of_In Hid%bool_decide_eq_true].
      by destruct (Hall n Hn).
  - unfold targetNode, findTargetNode, strict_eq. intros n Hfind.
    by apply find_some in Hfind as [Hn%list_elem_of_In Hid%bool_decide_eq_true].
Qed.

(** The shape of a run that returns, as the sink sees it. *)
Lemma run_inr_sink w st :
  run (mkTraced w []) = (st, inr tt) →
  ∃ items pre,
    trace st = pre ++ [EvGenerateMarkdown items] ∧
    Forall (λ ev, isSinkCall ev = false) pre ∧
    sinkCalls (trace st) = [items] ∧
    foldedLinks pre = links rows ∧
    jsmap_keys items = firstSeen [] (linkSources (links rows)) ∧
    ∃ w1, lead pre w w1 ∧ generateMarkdown items w1 = (world st, inr tt).
Proof.
  intros (items & st1 & Hscan & Htr & Hsink)%run_inr.
  pose proof Hscan as (evs & Hevs & Hnosink)%scanLinks_no_sink.
  pose proof (scanLinks_world _ _ _ _ _ _ Hscan Hevs) as Hworld.
  apply scanLinks_inr in Hscan as (Hkeys & _ & Htr1).
  cbn in Hkeys, Htr1, Hevs, Hworld. exists items, (trace st1).
  split_and!; [done| | | |done|].
  4:{ exists (world st1). split; [by rewrite Hevs|done]. }
  - by rewrite Hevs.
  - rewrite Htr. unfold sinkCalls. rewrite omap_app.
    rewrite Hevs. fold (sinkCalls evs). by rewrite sinkCalls_no_sink.
  - rewrite Htr1. apply foldedLinks_expectedCalls. intros row Hrow.
    apply jsmap_keys_get. rewrite Hkeys.
    apply (firstSeen_elem_of [] (linkSources (links rows))). right.
    unfold linkSources.
    by apply (list_elem_of_fmap_2 (λ r : Obj, get_prop r "source")).
Qed.
End AggregatorFacts.

(** C3. A run that returns has called the sink once, as its last call, after
    the fold function was called for every link; the mapping it received
    iterates the distinct sources in the order of their first occurrence in
    the links.  The sink was applied to that mapping on the world the calls
    before it lead to from the initial world, it returned, and the world it
    left is the world of the run.  The order of the keys is a function of
    the links alone: any other run over the same links that returns,
    whatever its nodes list, hands its sink the same keys in the same
    order. *)
Theorem sink_called_once_in_first_seen_order {W TItem : Type}
    rows nodeFilter createEmptyItem populateItemFromNode processLink
    generateMarkdown (w : W) st :
  graphologyToMD rows nodeFilter createEmptyItem populateItemFromNode
    processLink generateMarkdown (mkTraced w []) = (st, inr tt) →
  ∃ (items : JsMap TItem) pre,
    trace st = pre ++ [EvGenerateMarkdown items] ∧
    Forall (λ ev, isSinkCall ev = false) pre ∧
    sinkCalls (trace st) = [items] ∧
    foldedLinks pre = links rows ∧
    jsmap_keys items = firstSeen [] (linkSources (links rows)) ∧
    (∃ w1, callsLead createEmptyItem populateItemFromNode processLink
             generateMarkdown pre w w1 ∧
           generateMarkdown items w1 = (world st, inr tt)) ∧
    (∀ nodes' nodeFilter' (createEmptyItem' : M W TItem) populateItemFromNode'
       processLink' generateMarkdown' (w' : W) st',
       graphologyToMD (mkGraphOutput nodes' (links rows)) nodeFilter'
         createEmptyItem' populateItemFromNode' processLink' generateMarkdown'
         (mkTraced w' []) = (st', inr tt) →
       (λ m, jsmap_keys m) <$> sinkCalls (trace st') = [jsmap_keys items]).
Proof.
  intros (items & pre & Htr & Hpre & Hsink & Hfolded & Hkeys & Hworld)%run_inr_sink.
  exists items, pre. split_and!; try done.
  intros nodes' nodeFilter' createEmptyItem' populateItemFromNode' processLink'
    generateMarkdown' w' st'
    (items' & pre' & _ & _ & Hsink' & _ & Hkeys' & _)%run_inr_sink.
  rewrite Hsink'. cbn in *. by rewrite Hkeys, Hkeys'.
Qed.

(** ** The claims on the sample data *)

Lemma missing_source_node_aborts_witness :
  links tierRows = links itemRows ++ link "C" "A" ∅ :: [] ∧
  findSourceNode tierRows None (get_prop (link "C" "A" ∅) "source")
  = Some {[ "id" := JStr "C"; "type" := JStr "tier"; "name" := JStr "Advanced" ]} ∧
  findSourceNode tierRows itemFilter (get_prop (link "C" "A" ∅) "source") = None ∧
  ((∃ e, (heapAggregate tierRows).2 = inl e) ∧
   Forall (λ ev, isSinkCall ev = false) (trace (heapAggregate tierRows).1) ∧
   ∀ st1 items1,
     scanLinks tierRows itemFilter heapCreateEmptyItem heapPopulateItemFromNode
       heapProcessLink [] (links itemRows) (mkTraced [] []) = (st1, inr items1) →
     heapAggregate tierRows = (st1, inl (noNodeFound (link "C" "A" ∅)))) ∧
  noNodeFound (link "C" "A" ∅) = Error "No node found for C => A".
Proof.
  split; [reflexivity|]. split; [reflexivity|]. split; [reflexivity|].
  split; [|reflexivity]. unfold heapAggregate.
  apply (missing_source_node_aborts tierRows itemFilter heapCreateEmptyItem
           heapPopulateItemFromNode heapProcessLink heapGenerateMarkdown
           (links itemRows) (link "C" "A" ∅) [] []); [reflexivity|].
  by apply findSourceNode_None.
Defined.

Lemma one_record_per_link_source_witness :
  (heapAggregate itemRows).2 = inr tt ∧
  ∃ items,
    trace (heapAggregate itemRows).1
    = expectedCalls itemRows itemFilter items [] (links itemRows)
      ++ [EvGenerateMarkdown items] ∧
    jsmap_keys items = firstSeen [] (linkSources (links itemRows)) ∧
    NoDup (jsmap_keys items) ∧
    (∀ k, is_Some (jsmap_get items k)
          ↔ ∃ row, row ∈ links itemRows ∧ get_prop row "source" = k) ∧
    callsLead heapCreateEmptyItem heapPopulateItemFromNode heapProcessLink
      heapGenerateMarkdown
      (expectedCalls itemRows itemFilter items [] (links itemRows)
       ++ [EvGenerateMarkdown items]) [] (world (heapAggregate itemRows).1).
Proof.
  split; [reflexivity|].
  apply (one_record_per_link_source itemRows itemFilter heapCreateEmptyItem
           heapPopulateItemFromNode heapProcessLink heapGenerateMarkdown []).
  vm_compute. reflexivity.
Defined.

Lemma sink_called_once_in_first_seen_order_witness :
  (heapAggregate itemRows).2 = inr tt ∧
  firstSeen [] (linkSources (links itemRows)) = [JStr "D"; JStr "A"] ∧
  ∃ items pre,
    trace (heapAggregate itemRows).1 = pre ++ [EvGenerateMarkdown items] ∧
    Forall (λ ev, isSinkCall ev = false) pre ∧
    sinkCalls (trace (heapAggregate itemRows).1) = [items] ∧
    foldedLinks pre = links itemRows ∧
    jsmap_keys items = firstSeen [] (linkSources (links itemRows)) ∧
    (∃ w1, callsLead heapCreateEmptyItem heapPopulateItemFromNode heapProcessLink
             heapGenerateMarkdown pre [] w1 ∧
           heapGenerateMarkdown items w1
           = (world (heapAggregate itemRows).1, inr tt)) ∧
    (λ m, jsmap_keys m) <$> sinkCalls
      (trace (heapAggregate (mkGraphOutput (reverse (nodes itemRows))
                                           (links itemRows))).1)
    = [jsmap_keys items].
Proof.
  split; [reflexivity|]. split; [reflexivity|].
  destruct (sink_called_once_in_first_seen_order itemRows itemFilter
              heapCreateEmptyItem heapPopulateItemFromNode heapProcessLink
              heapGenerateMarkdown [] (heapAggregate itemRows).1)
    as (items & pre & Htr & Hpre & Hsink & Hfolded & Hkeys & Hworld & Hother).
  { vm_compute. reflexivity. }
  exists items, pre. split_and!; try done.
  apply (Hother (reverse (nodes itemRows)) itemFilter heapCreateEmptyItem
           heapPopulateItemFromNode heapProcessLink heapGenerateMarkdown []).
  vm_compute. reflexivity.
Defined.

Lemma target_lookup_by_id_only_witness :
  (itemFor danglingRows itemFilter heapCreateEmptyItem heapPopulateItemFromNode
     [] (link "A" "Z" ∅) (mkTraced [] [])).2 = inr 0 ∧
  findTargetNode danglingRows (JStr "Z") = None ∧
  (heapAggregate danglingRows).2 = inl (Error "No target node for A => Z") ∧
  (findTargetNode danglingRows (get_prop (link "A" "Z" ∅) "target") = None
   ↔ ∀ n, n ∈ nodes danglingRows → get_prop n "id" ≠ get_prop (link "A" "Z" ∅) "target").
Proof.
  split; [reflexivity|]. split; [reflexivity|]. split; [reflexivity|].
  refine (proj1 (proj2 (proj2 (target_lookup_by_id_only danglingRows itemFilter
    heapCreateEmptyItem heapPopulateItemFromNode heapProcessLink
    [] (link "A" "Z" ∅) (mkTraced [] []) _ 0 _)))).
  vm_compute. reflexivity.
Defined.

(** ** Scenarios *)

(** The records the sample aggregation leaves on the heap: each item carries
    the amount of the link to the attribute [B]. *)
Example aggregate_copies_link_amounts :
  world (heapAggregate itemRows).1
  = [ {[ "name" := JStr "Sword II"; "B" := JNum 2; "C" := JNum 0 ]};
      {[ "name" := JStr "Sword I"; "B" := JNum 7; "C" := JNum 0 ]} ].
Proof. vm_compute. reflexivity. Qed.

(** A link whose source is in no node. *)
Example aggregate_unknown_source :
  heapAggregate (mkGraphOutput (nodes itemRows) [link "X" "A" ∅])
  = (mkTraced [] [], inl (Error "No node found for X => A")).
Proof. vm_compute. reflexivity. Qed.

(** The out-neighbors of [sword_1] by type; [relic] has no type. *)
Example sword_neighbors_by_type :
  ∃ grouped : gmap string (list Obj),
    groupConnectedNodesByType swordGraph "sword_1" None = inr grouped ∧
    dom grouped = {[ "attribute"; "tier"; "unknown"; "set" ]} ∧
    (λ r : Obj, get_prop r "id") <$> default [] (grouped !! "attribute")
    = [JStr "attack"; JStr "speed"] ∧
    (λ r : Obj, get_prop r "id") <$> default [] (grouped !! "tier") = [JStr "normal"] ∧
    (λ r : Obj, get_prop r "id") <$> default [] (grouped !! "unknown") = [JStr "relic_v2"] ∧
    (λ r : Obj, get_prop r "id") <$> default [] (grouped !! "set") = [JStr "basic"].
Proof. eexists. split; [reflexivity|]. split_and!; reflexivity. Qed.

(** The batch step doubles the value of the one item of the store. *)
Example batch_doubles_item_value :
  (λ e : string * Obj, (e.1, get_prop e.2 "value"))
  <$> nodeEntries (world (createBatchProcessor theStore isItem doubleValue tt
                            graphContext (mkTraced swordGraph [])).1)
  = [ ("basic", JUndefined); ("normal", JUndefined); ("speed", JUndefined);
      ("attack", JUndefined); ("relic", JUndefined); ("sword_1", JNum 10) ].
Proof. vm_compute. reflexivity. Qed.

(** * Further properties *)

(** ** executeMany *)

Section ExecuteManyFacts.
Context {St V C : Type}.
Implicit Types (p : ProcessingPipeline St V C).

Lemma mapM_app {A B} (f : A → M St B) xs ys s :
  mapM f (xs ++ ys) s = (a ← mapM f xs; b ← mapM f ys; ret (a ++ b)) s.
Proof.
  revert s. induction xs as [|x xs IH]; intros s; cbn.
  - unfold mbind, M_bind, bind, ret. by destruct (mapM f ys s) as [s' [e|b]].
  - unfold mbind, M_bind, bind, ret in *.
    destruct (f x s) as [s1 [e|y]]; [done|]. rewrite IH.
    destruct (mapM f xs s1) as [s2 [e|a]]; [done|].
    by destruct (mapM f ys s2) as [s3 [e|b]].
Qed.

Lemma mapM_length {A B} (f : A → M St B) xs s s' ys :
  mapM f xs s = (s', inr ys) → length ys = length xs.
Proof.
  revert s ys. induction xs as [|x xs IH]; intros s ys; cbn.
  - by intros [= <- <-].
  - unfold mbind, M_bind, bind, ret.
    destruct (f x s) as [s1 [e|y]]; [done|].
    destruct (mapM f xs s1) as [s2 [e|ys']] eqn:Hxs; [done|].
    intros [= <- <-]. cbn. f_equal. by eapply IH.
Qed.

(** X1. [executeMany] runs the pipeline on the inputs one after the other,
    each run starting in the world the previous one left: a run over
    [xs ++ ys] is the run over [xs] followed by the run over [ys], and a run
    that returns gives one output per input. *)
Theorem executeMany_in_sequence p :
  (∀ xs ys s,
     executeMany p (xs ++ ys) s
     = (a ← executeMany p xs; b ← executeMany p ys; ret (a ++ b)) s) ∧
  (∀ x xs s,
     executeMany p (x :: xs) s
     = (y ← execute p x; ys ← executeMany p xs; ret (y :: ys)) s) ∧
  (∀ inputs s s' outputs,
     executeMany p inputs s = (s', inr outputs) → length outputs = length inputs).
Proof.
  split_and!.
  - intros xs ys s. apply mapM_app.
  - reflexivity.
  - intros inputs s s' outputs. apply mapM_length.
Qed.

(** X2. [executeMany] stops at the first input on which the pipeline throws:
    the error is the run's, the world is the one that run left, the inputs
    after it are not run and no output is returned. *)
Theorem executeMany_stops_at_first_throw p xs y zs s s1 outputs s2 e :
  executeMany p xs s = (s1, inr outputs) →
  execute p y s1 = (s2, inl e) →
  executeMany p (xs ++ y :: zs) s = (s2, inl e).
Proof.
  intros Hxs Hy. unfold executeMany in *. rewrite mapM_app.
  unfold mbind, M_bind, bind. rewrite Hxs. cbn.
  unfold mbind, M_bind, bind. by rewrite Hy.
Qed.
End ExecuteManyFacts.

Lemma executeMany_stops_at_first_throw_witness :
  executeMany countingPipeline [JNum 1; JStr "a"] 0 = (2, inr [JNum 1; JStr "a"]) ∧
  execute countingPipeline JNull 2 = (2, inl (Error "null input")) ∧
  executeMany countingPipeline ([JNum 1; JStr "a"] ++ JNull :: [JNum 3]) 0
  = (2, inl (Error "null input")).
Proof.
  split; [reflexivity|]. split; [reflexivity|].
  by apply (executeMany_stops_at_first_throw countingPipeline
              [JNum 1; JStr "a"] JNull [JNum 3] 0 2 [JNum 1; JStr "a"] 2).
Defined.

(** ** Collection steps *)

Section CollectionFacts.
Context {St TContext : Type}.

Lemma filterFrom_app {A} (predicate : A → nat → bool) i xs ys :
  filterFrom predicate i (xs ++ ys)
  = filterFrom predicate i xs ++ filterFrom predicate (i + length xs) ys.
Proof.
  revert i. induction xs as [|x xs IH]; intros i; cbn.
  - by rewrite Nat.add_0_r.
  - rewrite IH, Nat.add_succ_r. by destruct (predicate x i).
Qed.

Lemma filterFrom_sublist {A} (predicate : A → nat → bool) i xs :
  filterFrom predicate i xs `sublist_of` xs.
Proof.
  revert i. induction xs as [|x xs IH]; intros i; cbn; [done|].
  destruct (predicate x i); [by apply sublist_skip|by apply sublist_cons].
Qed.

Lemma filterFrom_elem_of {A} (predicate : A → nat → bool) i xs x :
  x ∈ filterFrom predicate i xs
  ↔ ∃ j, xs !! j = Some x ∧ predicate x (i + j) = true.
Proof.
  revert i. induction xs as [|y xs IH]; intros i; cbn.
  - split; [by intros ?%elem_of_nil|by intros (j & ? & _)].
  - destruct (predicate y i) eqn:Hy.
    + rewrite elem_of_cons, IH. split.
      * intros [->|(j & Hj & Hp)].
        -- exists 0. by rewrite Nat.add_0_r.
        -- exists (S j). by rewrite Nat.add_succ_r.
      * intros ([|j] & Hj & Hp); cbn in Hj.
        -- left. congruence.
        -- right. exists j. by rewrite Nat.add_succ_r in Hp.
    + rewrite IH. split.
      * intros (j & Hj & Hp). exists (S j). by rewrite Nat.add_succ_r.
      * intros ([|j] & Hj & Hp); cbn in Hj.
        -- rewrite Nat.add_0_r in Hp. congruence.
        -- exists j. by rewrite Nat.add_succ_r in Hp.
Qed.

(** X3. A filter step returns, without touching the state, the items the
    predicate accepts at their position in the input, in input order: the
    output is a sublist of the input, an item is in it exactly when it sits
    at a position where the predicate accepts it, and filtering [xs ++ ys]
    filters [ys] with its positions counted after those of [xs]. *)
Theorem createFilter_keeps_accepted_in_order {A} (predicate : A → nat → bool)
    (context : TContext) (s : St) :
  (∀ items, ∃ output,
     createFilter predicate items context s = (s, inr output) ∧
     output `sublist_of` items ∧
     ∀ x, x ∈ output ↔ ∃ i, items !! i = Some x ∧ predicate x i = true) ∧
  (∀ xs ys,
     createFilter predicate (xs ++ ys) context s
     = (s, inr (filterFrom predicate 0 xs ++ filterFrom predicate (length xs) ys))).
Proof.
  split.
  - intros items. eexists. split; [reflexivity|]. split.
    + apply filterFrom_sublist.
    + intros x. apply (filterFrom_elem_of predicate 0).
  - intros xs ys. unfold createFilter, ret. by rewrite filterFrom_app.
Qed.

(** X4. A map step returns one output per item, the one at position [i]
    being [mapFn] of the item at [i] and of [i]; two map steps in a row are
    the map step of the composed function, each function seeing the same
    position. *)
Theorem createMapper_positionwise {A B D} (mapFn : A → nat → B)
    (mapFn2 : B → nat → D) (context : TContext) (s : St) items :
  ∃ output,
    createMapper mapFn items context s = (s, inr output) ∧
    length output = length items ∧
    (∀ i, output !! i = (λ item, mapFn item i) <$> items !! i) ∧
    (x ← createMapper mapFn items context; createMapper mapFn2 x context) s
    = createMapper (λ item i, mapFn2 (mapFn item i) i) items context s.
Proof.
  eexists. split; [reflexivity|]. split_and!.
  - apply length_imap.
  - intros i. apply list_lookup_imap.
  - unfold createMapper, mbind, M_bind, bind, ret. cbn. do 2 f_equal.
    apply list_eq. intros i. rewrite !list_lookup_imap.
    by destruct (items !! i).
Qed.

Lemma reduceFrom_app {A B} (reduceFn : B → A → nat → B) i acc xs ys :
  reduceFrom reduceFn i acc (xs ++ ys)
  = reduceFrom reduceFn (i + length xs) (reduceFrom reduceFn i acc xs) ys.
Proof.
  revert i acc. induction xs as [|x xs IH]; intros i acc; cbn.
  - by rewrite Nat.add_0_r.
  - by rewrite IH, Nat.add_succ_r.
Qed.

(** X5. A reduce step is the left fold from the seed: on the empty array it
    returns the seed (it never throws for want of an initial value); the
    last item is folded last, with its position; and when the reducing
    function ignores the position the result is the ordinary left fold. *)
Theorem createReducer_left_fold {A B} (reduceFn : B → A → nat → B)
    (initialValue : B) (context : TContext) (s : St) :
  createReducer reduceFn initialValue [] context s = (s, inr initialValue) ∧
  (∀ items item,
     createReducer reduceFn initialValue (items ++ [item]) context s
     = (s, inr (reduceFn (reduceFrom reduceFn 0 initialValue items) item
                         (length items)))) ∧
  (∀ (f : B → A → B) items,
     (∀ acc item i, reduceFn acc item i = f acc item) →
     createReducer reduceFn initialValue items context s
     = (s, inr (foldl f initialValue items))).
Proof.
  split_and!.
  - reflexivity.
  - intros items item. unfold createReducer, ret. by rewrite reduceFrom_app.
  - intros f items Hf. unfold createReducer, ret. do 2 f_equal.
    generalize 0 as i. revert initialValue.
    induction items as [|x items IH]; intros acc i; cbn; [done|].
    by rewrite Hf, IH.
Qed.
End CollectionFacts.

(** ** createGrouper *)

Section GrouperFacts.
Context {St TContext A : Type}.
Variable keyFn : A → string.

Lemma groupItem_lookup groups item groups' k :
  groupItem keyFn groups item = inr groups' →
  groups' !! k = if decide (k = keyFn item)
                 then Some (default [] (groups !! k) ++ [item])
                 else groups !! k.
Proof.
  unfold groupItem.
  destruct (groups !! keyFn item) as [arr|] eqn:Hown.
  - intros [= <-]. case_decide as Hk.
    + subst k. by rewrite lookup_insert_eq, Hown.
    + by rewrite lookup_insert_ne.
  - destruct (inherited (keyFn item)); [discriminate|].
    intros [= <-]. case_decide as Hk.
    + subst k. by rewrite lookup_insert_eq, Hown.
    + by rewrite lookup_insert_ne.
Qed.

Lemma foldR_groupItem_lookup items groups groups' k :
  foldR (groupItem keyFn) groups items = inr groups' →
  groups' !! k
  = match filter (λ x, keyFn x = k) items with
    | [] => groups !! k
    | x :: grp => Some (default [] (groups !! k) ++ x :: grp)
    end.
Proof.
  revert groups. induction items as [|item items IH]; intros groups; cbn.
  - by intros [= <-].
  - destruct (groupItem keyFn groups item) as [e|g1] eqn:Hstep; cbn; [discriminate|].
    intros Hrest. rewrite (IH _ Hrest). rewrite (groupItem_lookup _ _ _ k Hstep).
    destruct (decide (k = keyFn item)) as [->|Hk].
    + rewrite decide_True by done.
      destruct (filter _ items) as [|x grp]; cbn; [done|].
      by rewrite <- app_assoc.
    + rewrite decide_False by done. done.
Qed.

Lemma foldR_groupItem_returns items groups :
  Forall (λ x, inherited (keyFn x) = false) items →
  ∃ groups', foldR (groupItem keyFn) groups items = inr groups'.
Proof.
  intros Hall. revert groups.
  induction Hall as [|item items Hitem _ IH]; intros groups; [by eexists|].
  assert (∃ g1, groupItem keyFn groups item = inr g1) as [g1 Hg1].
  { unfold groupItem. rewrite Hitem.
    destruct (groups !! keyFn item); by eexists. }
  change (foldR (groupItem keyFn) groups (item :: items))
    with (b ← groupItem keyFn groups item; foldR (groupItem keyFn) b items).
  rewrite Hg1. apply IH.
Qed.

Lemma foldR_groupItem_throws items groups :
  (∀ k, inherited k = true → groups !! k = None) →
  Exists (λ x, inherited (keyFn x) = true) items →
  foldR (groupItem keyFn) groups items
  = inl (TypeError "groups[key].push is not a function").
Proof.
  intros Hown Hex. revert groups Hown.
  induction items as [|item items IH]; intros groups Hown;
    [by apply Exists_nil in Hex|].
  change (foldR (groupItem keyFn) groups (item :: items))
    with (b ← groupItem keyFn groups item; foldR (groupItem keyFn) b items).
  destruct (inherited (keyFn item)) eqn:Hitem.
  - unfold groupItem. by rewrite (Hown _ Hitem), Hitem.
  - apply Exists_cons in Hex as [Hex|Hex]; [congruence|].
    destruct (groupItem keyFn groups item) as [e|g1] eqn:Hstep; cbn.
    { unfold groupItem in Hstep. rewrite Hitem in Hstep.
      by destruct (groups !! keyFn item). }
    apply IH; [exact Hex|]. intros k Hk.
    rewrite (groupItem_lookup _ _ _ k Hstep).
    rewrite decide_False by congruence. by apply Hown.
Qed.

(** X6. When no item's key is a name that [Object.prototype] defines, a
    group-by step returns, without touching the state, a partition of the
    items: under each key, the items with that key in input order, and no
    entry for a key that no item has. *)
Theorem createGrouper_partitions items (context : TContext) (s : St) :
  Forall (λ x, inherited (keyFn x) = false) items →
  ∃ groups,
    createGrouper keyFn items context s = (s, inr groups) ∧
    ∀ k, groups !! k
         = match filter (λ x, keyFn x = k) items with
           | [] => None
           | x :: grp => Some (x :: grp)
           end.
Proof.
  intros Hall. destruct (foldR_groupItem_returns items ∅ Hall) as [groups Hgroups].
  exists groups. unfold createGrouper, liftResult. rewrite Hgroups.
  split; [done|]. intros k.
  rewrite (foldR_groupItem_lookup _ _ _ k Hgroups), lookup_empty.
  by destruct (filter _ items).
Qed.

(** X7. When some item's key is a name that [Object.prototype] defines
    ([constructor], [toString], [__proto__], ...), a group-by step throws a
    [TypeError] and returns no groups at all. *)
Theorem createGrouper_throws_on_inherited_key items (context : TContext) (s : St) :
  Exists (λ x, inherited (keyFn x) = true) items →
  createGrouper keyFn items context s
  = (s, inl (TypeError "groups[key].push is not a function")).
Proof.
  intros Hex. unfold createGrouper, liftResult.
  by rewrite foldR_groupItem_throws.
Qed.
End GrouperFacts.

Lemma createGrouper_partitions_witness :
  Forall (λ x : Obj, inherited (toStr (get_prop x "type")) = false) (nodes itemRows) ∧
  ∃ groups,
    createGrouper (λ x : Obj, toStr (get_prop x "type")) (nodes itemRows) tt tt
    = (tt, inr groups) ∧
    ∀ k, groups !! k
         = match filter (λ x : Obj, toStr (get_prop x "type") = k) (nodes itemRows) with
           | [] => None
           | x :: grp => Some (x :: grp)
           end.
Proof.
  assert (Forall (λ x : Obj, inherited (toStr (get_prop x "type")) = false)
                 (nodes itemRows)) as Hall.
  { repeat (constructor; [reflexivity|]). constructor. }
  split; [exact Hall|].
  exact (createGrouper_partitions (λ x : Obj, toStr (get_prop x "type"))
           (nodes itemRows) tt tt Hall).
Defined.

Lemma createGrouper_throws_on_inherited_key_witness :
  createGrouper (St:=unit) (λ x : string, x) ["render"; "toString"; "render"] tt tt
  = (tt, inl (TypeError "groups[key].push is not a function")).
Proof.
  apply (createGrouper_throws_on_inherited_key (λ x : string, x)).
  apply Exists_cons_tl, Exists_cons_hd. reflexivity.
Defined.

(** ** groupConnectedNodesByType, in general *)

(** X8. When no neighbor's group key ([node.type || "unknown"]) is a name
    that [Object.prototype] defines, [groupConnectedNodesByType] returns a
    partition of the neighbor records: under each key the records with that
    key, in neighbor order; every record is in the group of its key; and a
    record whose type is missing or falsy is under ["unknown"]. *)
Theorem groupConnectedNodesByType_partitions g nodeId direction connected :
  getConnectedNodes g nodeId direction = inr connected →
  Forall (λ n, inherited (groupKey n) = false) connected →
  ∃ grouped,
    groupConnectedNodesByType g nodeId direction = inr grouped ∧
    (∀ k, grouped !! k
          = match filter (λ n, groupKey n = k) connected with
            | [] => None
            | n :: grp => Some (n :: grp)
            end) ∧
    (∀ n, n ∈ connected → ∃ grp, grouped !! groupKey n = Some grp ∧ n ∈ grp) ∧
    (∀ n, truthy (get_prop n "type") = false → groupKey n = "unknown").
Proof.
  intros Hconn Hall.
  destruct (foldR_groupNode_returns connected ∅ Hall) as [grouped Hgrouped].
  assert (groupConnectedNodesByType g nodeId direction = inr grouped) as Hrun.
  { unfold groupConnectedNodesByType. by rewrite Hconn. }
  pose proof (groupConnectedNodesByType_partition _ _ _ _ _ Hconn Hrun) as Hpart.
  exists grouped. split_and!; [done|done| |].
  - intros n Hn. rewrite Hpart.
    assert (n ∈ filter (λ m, groupKey m = groupKey n) connected) as Hin.
    { by apply list_elem_of_filter. }
    destruct (filter _ connected) as [|m grp]; [by apply elem_of_nil in Hin|].
    by eexists.
  - intros n Hfalsy. unfold groupKey, js_or. by rewrite Hfalsy.
Qed.

Lemma groupConnectedNodesByType_partitions_witness :
  ∃ connected,
    getConnectedNodes swordGraph "sword_1" None = inr connected ∧
    Forall (λ n, inherited (groupKey n) = false) connected ∧
    ∃ grouped,
      groupConnectedNodesByType swordGraph "sword_1" None = inr grouped ∧
      (∀ k, grouped !! k
            = match filter (λ n, groupKey n = k) connected with
              | [] => None
              | n :: grp => Some (n :: grp)
              end) ∧
      (∀ n, n ∈ connected → ∃ grp, grouped !! groupKey n = Some grp ∧ n ∈ grp) ∧
      (∀ n, truthy (get_prop n "type") = false → groupKey n = "unknown").
Proof.
  exists [ nodeWithAttributes "attack" {[ "id" := JStr "attack"; "name" := JStr "Attack"; "type" := JStr "attribute" ]};
           nodeWithAttributes "speed" {[ "name" := JStr "Speed"; "type" := JStr "attribute" ]};
           nodeWithAttributes "normal" {[ "id" := JStr "normal"; "name" := JStr "Normal"; "type" := JStr "tier" ]};
           nodeWithAttributes "relic" {[ "id" := JStr "relic_v2"; "name" := JStr "Relic" ]};
           nodeWithAttributes "basic" {[ "id" := JStr "basic"; "name" := JStr "Basic"; "type" := JStr "set" ]} ].
  assert (Forall (λ n, inherited (groupKey n) = false)
            [ nodeWithAttributes "attack" {[ "id" := JStr "attack"; "name" := JStr "Attack"; "type" := JStr "attribute" ]};
              nodeWithAttributes "speed" {[ "name" := JStr "Speed"; "type" := JStr "attribute" ]};
              nodeWithAttributes "normal" {[ "id" := JStr "normal"; "name" := JStr "Normal"; "type" := JStr "tier" ]};
              nodeWithAttributes "relic" {[ "id" := JStr "relic_v2"; "name" := JStr "Relic" ]};
              nodeWithAttributes "basic" {[ "id" := JStr "basic"; "name" := JStr "Basic"; "type" := JStr "set" ]} ])
    as Hall.
  { repeat (constructor; [reflexivity|]). constructor. }
  split; [reflexivity|]. split; [exact Hall|].
  apply (groupConnectedNodesByType_partitions swordGraph "sword_1" None);
    [reflexivity|exact Hall].
Defined.

(** X9. When some neighbor's group key is a name that [Object.prototype]
    defines, [groupConnectedNodesByType] throws a [TypeError], whatever the
    other neighbors are. *)
Theorem groupConnectedNodesByType_throws_on_inherited_key
    g nodeId direction connected :
  getConnectedNodes g nodeId direction = inr connected →
  Exists (λ n, inherited (groupKey n) = true) connected →
  groupConnectedNodesByType g nodeId direction
  = inl (TypeError "grouped[type].push is not a function").
Proof.
  intros Hconn Hex. unfold groupConnectedNodesByType. rewrite Hconn. cbn.
  by apply foldR_groupNode_throws.
Qed.

Lemma groupConnectedNodesByType_throws_on_inherited_key_witness :
  groupConnectedNodesByType classGraph "Widget" None
  = inl (TypeError "grouped[type].push is not a function").
Proof.
  apply (groupConnectedNodesByType_throws_on_inherited_key classGraph "Widget" None
           [ nodeWithAttributes "Widget.render" {[ "type" := JStr "method" ]};
             nodeWithAttributes "Widget.new" {[ "type" := JStr "constructor" ]} ]).
  - reflexivity.
  - apply Exists_cons_tl, Exists_cons_hd. reflexivity.
Defined.

(** ** createConditionalProcessor *)

(** X10. In a pipeline, a conditional step whose condition has no effect and
    answers [b] stands for its chosen branch: the then-step when [b] is true,
    the else-step when it is false, and nothing at all when it is false and
    there is no else-step (the value passes through). *)
Theorem conditional_step_is_its_branch {St V C : Type}
    (condition : V → gmap string C → M St bool)
    (thenProcessor : Processor St V V (gmap string C))
    (elseProcessor : option (Processor St V V (gmap string C)))
    (b : bool) steps1 steps2 ctx input s :
  (∀ x s', condition x ctx s' = (s', inr b)) →
  execute (mkPipeline
             (steps1
              ++ createConditionalProcessor condition thenProcessor elseProcessor
              :: steps2) ctx) input s
  = execute (mkPipeline
               (steps1
                ++ (if b then [thenProcessor]
                    else match elseProcessor with
                         | Some elseProcessor => [elseProcessor]
                         | None => []
                         end)
                ++ steps2) ctx) input s.
Proof.
  intros Hcond. unfold execute; cbn [processors context].
  rewrite !foldM_app. unfold mbind, M_bind, bind.
  match goal with |- context [foldM ?f input steps1 s] =>
    destruct (foldM f input steps1 s) as [s1 [e|x]] end; [done|].
  cbn [foldM]. unfold mbind at 1; unfold M_bind, bind.
  unfold createConditionalProcessor at 1. unfold mbind at 1; unfold M_bind, bind.
  rewrite Hcond.
  destruct b; [|destruct elseProcessor as [elseStep|]].
  - rewrite foldM_app. cbn [foldM]. unfold mbind, M_bind, bind, ret.
    by destruct (thenProcessor x ctx s1) as [s2 [e|y]].
  - rewrite foldM_app. cbn [foldM]. unfold mbind, M_bind, bind, ret.
    by destruct (elseStep x ctx s1) as [s2 [e|y]].
  - done.
Qed.

Lemma conditional_step_is_its_branch_witness :
  execute (mkPipeline
             ([countingStep]
              ++ createConditionalProcessor (λ _ _, ret false) countingStep None
              :: [countingStep]) graphContext) (JNum 7) 0
  = (2, inr (JNum 7)).
Proof.
  rewrite (conditional_step_is_its_branch (λ _ _, ret false) countingStep None
             false [countingStep] [countingStep] graphContext (JNum 7) 0);
    reflexivity.
Defined.

(** ** createParallelProcessor *)

Section ParallelFacts.
Context {W TInput R TOutput TContext : Type}.
Implicit Types (processors : list (Processor W TInput R TContext)).

Lemma parallel_branches processors n (input : TInput) (context : TContext)
    (st st' : Traced W (@ParEvent R)) r :
  mapM (λ ip : nat * Processor W TInput R TContext,
          invoke (EvBranch ip.1) (ip.2 input context))
       (imap (λ i p, (n + i, p)) processors) st = (st', r) →
  (∃ results, r = inr results ∧ length results = length processors ∧
     branchesLead processors input context results (world st) (world st') ∧
     trace st' = trace st ++ imap (λ i x, EvBranch (n + i) (inr x)) results) ∨
  (∃ results e before p after w1,
     r = inl e ∧ length results < length processors ∧
     processors = before ++ p :: after ∧
     branchesLead before input context results (world st) w1 ∧
     p input context w1 = (world st', inl e) ∧
     trace st' = trace st ++ imap (λ i x, EvBranch (n + i) (inr x)) results
                 ++ [EvBranch (n + length results) (inl e)]).
Proof.
  revert n st r. induction processors as [|p processors IH]; intros n st r.
  - cbn. intros [= <- <-]. left. exists []. by rewrite app_nil_r.
  - rewrite imap_cons. cbn [mapM]. unfold mbind at 1; unfold M_bind, bind.
    unfold invoke at 1. cbn [fst snd]. rewrite Nat.add_0_r.
    destruct (p input context (world st)) as [w1 [e|x]] eqn:Hp.
    + intros [= <- <-]. right. exists [], e, [], p, processors, (world st). cbn.
      rewrite Nat.add_0_r. split_and!; [done|lia|done|done|done|done].
    + unfold mbind at 1; unfold M_bind, bind.
      destruct (mapM _ (imap _ processors) _) as [st2 [e|xs]] eqn:Hrest.
      * intros [= <- <-].
        rewrite (imap_ext _ (λ i q, (S n + i, q))) in Hrest
          by (intros; cbn; f_equal; lia).
        apply IH in Hrest
          as [(results & [=] & _)
             |(results & e' & before & q & after & w2 & [= <-] & Hlen & -> & Hlead
               & Hq & Htr)].
        right. exists (x :: results), e, (p :: before), q, after, w2. cbn in *.
        split_and!; [done|lia|done|by exists w1|done|].
        rewrite Htr, <- !app_assoc. cbn. rewrite Nat.add_0_r. do 2 f_equal.
        rewrite Nat.add_succ_r. f_equal.
        apply imap_ext. intros; cbn. do 2 f_equal. lia.
      * cbn. intros [= <- <-].
        rewrite (imap_ext _ (λ i q, (S n + i, q))) in Hrest
          by (intros; cbn; f_equal; lia).
        apply IH in Hrest
          as [(results & [= ->] & Hlen & Hlead & Htr)|(results & e' & ? & ? & ? & ? & [=] & _)].
        left. exists (x :: results). cbn in *.
        split_and!; [done|lia|by exists w1|].
        rewrite Htr, <- !app_assoc. cbn. rewrite Nat.add_0_r. do 2 f_equal.
        apply imap_ext. intros; cbn. do 2 f_equal. lia.
Qed.

(** X11. A parallel step runs its branches one after the other, in list
    order, each on the world the one before left.  Either every branch
    returns, and the combine function is then called once, on the world the
    last branch left, with the results of the branches in branch order: its
    outcome and its world are those of the step.  Or the first branch that
    throws ends the step with its error and its world: the branches before
    it returned, the later branches are not run and the combine function is
    not called. *)
Theorem createParallelProcessor_calls processors
    (combineFn : list R → M W TOutput) (input : TInput) (context : TContext)
    (w : W) st r :
  createParallelProcessor processors combineFn input context (mkTraced w []) = (st, r) →
  (∃ results w1,
     length results = length processors ∧
     branchesLead processors input context results w w1 ∧
     combineFn results w1 = (world st, r) ∧
     trace st = imap (λ i x, EvBranch i (inr x)) results ++ [EvCombine results]) ∨
  (∃ results e before p after w1,
     length results < length processors ∧
     processors = before ++ p :: after ∧
     branchesLead before input context results w w1 ∧
     p input context w1 = (world st, inl e) ∧
     r = inl e ∧
     trace st = imap (λ i x, EvBranch i (inr x)) results
                ++ [EvBranch (length results) (inl e)]).
Proof.
  unfold createParallelProcessor. unfold mbind at 1; unfold M_bind, bind.
  destruct (mapM _ (imap pair processors) _) as [st1 [e|results]] eqn:Hbranches;
    apply (parallel_branches processors 0) in Hbranches
      as [(results' & Hr & Hlen & Hlead & Htr)
         |(results' & e' & before & p & after & w1 & Hr & Hlen & Hsplit & Hlead
           & Hp & Htr)];
    try discriminate; cbn in Htr, Hlead.
  - injection Hr as <-. intros [= <- <-]. right.
    by exists results', e, before, p, after, w1.
  - injection Hr as <-. unfold invoke.
    destruct (combineFn results (world st1)) as [w2 r2] eqn:Hcombine.
    intros [= <- <-]. left. exists results, (world st1). cbn.
    split_and!; [done|done|done|by rewrite Htr].
Qed.
End ParallelFacts.

Lemma createParallelProcessor_calls_witness :
  (∃ results w1,
     length results = 2 ∧
     branchesLead [countingStep; countingStep] (JNum 1) graphContext results 0 w1 ∧
     (λ results, ret (length results)) results w1
     = (world (createParallelProcessor [countingStep; countingStep]
                 (λ results, ret (length results)) (JNum 1) graphContext
                 (mkTraced 0 [])).1, inr 2) ∧
     trace (createParallelProcessor [countingStep; countingStep]
              (λ results, ret (length results)) (JNum 1) graphContext
              (mkTraced 0 [])).1
     = imap (λ i x, EvBranch i (inr x)) results ++ [EvCombine results]) ∧
  (createParallelProcessor [countingStep; countingStep]
     (λ results, ret (length results)) (JNum 1) graphContext (mkTraced 0 [])).2
  = inr 2 ∧
  world (createParallelProcessor [countingStep; countingStep]
           (λ results, ret (length results)) (JNum 1) graphContext
           (mkTraced 0 [])).1 = 2.
Proof.
  split; [|split; reflexivity].
  destruct (createParallelProcessor_calls [countingStep; countingStep]
              (λ results, ret (length results)) (JNum 1) graphContext 0 _ _
              (surjective_pairing _))
    as [(results & w1 & Hlen & Hlead & Hcombine & Htr)
       |(results & e & ? & ? & ? & ? & _ & _ & _ & _ & Hr & _)].
  - by exists results, w1.
  - discriminate Hr.
Defined.

(** ** createNodeTransformer *)

Section TransformerFacts.
Context {W C TOutput : Type}.
Variable store : C → W → option DirectedGraph.
Variable transformFn :
  string → Obj → gmap string (list Obj) → gmap string C → M W TOutput.
Implicit Types (st : Traced W string) (context : gmap string C).

(** The turn of one node. *)
Local Abbreviation turn context :=
  (λ nodeId : string,
     attributes ← readWorld (E:=string)
                    (λ w, g ← contextGraph store context w; getNodeAttributes g nodeId);
     connectedNodes ← readWorld (E:=string)
                        (λ w, g ← contextGraph store context w;
                              groupConnectedNodesByType g nodeId None);
     invoke (λ _, nodeId) (transformFn nodeId attributes connectedNodes context)).



(** X13. When the turn of a node id comes and the store has no node of that
    id, or the grouping of its neighbors throws, the step throws that error
    there: the transform function is not called for that id nor for the ids
    after it, and the outputs computed so far are dropped. *)
Theorem createNodeTransformer_read_failure pre nodeId post context st st1 outputs g e :
  createNodeTransformer store transformFn pre context st = (st1, inr outputs) →
  contextGraph store context (world st1) = inr g →
  getNodeAttributes g nodeId = inl e
  ∨ ((∃ attributes, getNodeAttributes g nodeId = inr attributes)
     ∧ groupConnectedNodesByType g nodeId None = inl e) →
  createNodeTransformer store transformFn (pre ++ nodeId :: post) context st
  = (st1, inl e).
Proof.
  intros Hpre Hg Hread. unfold createNodeTransformer in *.
  rewrite mapM_app. unfold mbind at 1; unfold M_bind, bind.
  match goal with |- context [let (_, _) := ?t in _] =>
    destruct t as [sx rx] eqn:Hx end.
  assert ((sx, rx) = (st1, inr outputs)) as [= -> ->] by (rewrite <- Hx; exact Hpre).
  cbn [mapM]. unfold readWorld, invoke, mbind, M_bind, bind, result_bind.
  rewrite Hg. destruct Hread as [->|[[attributes ->] ->]]; done.
Qed.

End TransformerFacts.


Lemma createNodeTransformer_read_failure_witness :
  createNodeTransformer theStore nameAndGroups ["sword_1"] graphContext
    (mkTraced swordGraph [])
  = (mkTraced swordGraph ["sword_1"], inr [(JStr "Sword I", 4)]) ∧
  getNodeAttributes swordGraph "nope"
  = inl (NotFoundGraphError "could not find the node nope") ∧
  createNodeTransformer theStore nameAndGroups (["sword_1"] ++ "nope" :: ["basic"])
    graphContext (mkTraced swordGraph [])
  = (mkTraced swordGraph ["sword_1"],
     inl (NotFoundGraphError "could not find the node nope")).
Proof.
  split; [reflexivity|]. split; [reflexivity|].
  apply (createNodeTransformer_read_failure theStore nameAndGroups
           ["sword_1"] "nope" ["basic"] graphContext (mkTraced swordGraph [])
           (mkTraced swordGraph ["sword_1"]) [(JStr "Sword I", 4)] swordGraph).
  - reflexivity.
  - reflexivity.
  - left. reflexivity.
Defined.


(** ** getEdgeAmounts *)

Section EdgeAmountsFacts.
Variable g : DirectedGraph.
Variable sourceNode : string.

(** The key of a target, and one turn of the loop. *)
Local Abbreviation keyOf := (λ target : Obj, toStr (get_prop target "id")).
Local Abbreviation amountStep :=
  (λ (amounts : Obj) (target : Obj),
     amount ← getEdgeAttribute g sourceNode (keyOf target) "amount";
     mret (assignProp amounts (keyOf target) (js_or amount (JNum 0)))).

Lemma foldR_amounts_lookup targets amounts0 amounts k :
  foldR amountStep amounts0 targets = inr amounts →
  amounts !! k
  = if decide (k ≠ "__proto__" ∧ k ∈ keyOf <$> targets)
    then match getEdgeAttribute g sourceNode k "amount" with
         | inr amount => Some (js_or amount (JNum 0))
         | inl _ => None
         end
    else amounts0 !! k.
Proof.
  revert amounts0. induction targets as [|target targets IH]; intros amounts0.
  - cbn. intros [= <-]. rewrite decide_False; [done|].
    intros [_ ?%elem_of_nil]. done.
  - cbn [foldR]. unfold mbind at 1, result_bind at 1.
    destruct (getEdgeAttribute g sourceNode (keyOf target) "amount")
      as [e|amount] eqn:Hedge; cbn; [done|].
    intros Hrest. rewrite (IH _ Hrest).
    change (keyOf <$> target :: targets) with (keyOf target :: (keyOf <$> targets)).
    destruct (decide (k ≠ "__proto__" ∧ k ∈ keyOf <$> targets)) as [[Hk Hin]|Hnot].
    + rewrite decide_True; [done|]. split; [done|]. by right.
    + unfold assignProp. case_bool_decide as Hproto.
      * destruct (decide (k = keyOf target)) as [->|Hne].
        -- rewrite decide_False; [done|]. intros [Hk _]. done.
        -- rewrite decide_False; [done|].
           intros [Hk [?|?]%elem_of_cons]; [done|]. by apply Hnot.
      * destruct (decide (k = keyOf target)) as [->|Hne].
        -- rewrite lookup_insert_eq, decide_True, Hedge; [done|].
           split; [done|by left].
        -- rewrite lookup_insert_ne by done. rewrite decide_False; [done|].
           intros [Hk [?|?]%elem_of_cons]; [done|]. by apply Hnot.
Qed.

Lemma foldR_amounts_edges targets amounts0 amounts :
  foldR amountStep amounts0 targets = inr amounts →
  Forall (λ target, ∃ amount,
            getEdgeAttribute g sourceNode (keyOf target) "amount" = inr amount)
         targets.
Proof.
  revert amounts0. induction targets as [|target targets IH]; intros amounts0;
    [by constructor|].
  cbn [foldR]. unfold mbind at 1, result_bind at 1.
  destruct (getEdgeAttribute g sourceNode (keyOf target) "amount")
    as [e|amount] eqn:Hedge; cbn; [done|].
  intros Hrest. constructor; [by eexists|by eapply IH].
Qed.

(** X15. When [getEdgeAmounts] returns, every target has an edge from the
    source node, and the object returned has, under the id of each target,
    the ["amount"] of that edge, or 0 when the amount is missing or falsy;
    it has no other key, and none for a target whose id is ["__proto__"].
    No value in it is falsy except 0. *)
Theorem getEdgeAmounts_lookup targetNodes amounts :
  getEdgeAmounts g sourceNode targetNodes = inr amounts →
  Forall (λ target, ∃ amount,
            getEdgeAttribute g sourceNode (keyOf target) "amount" = inr amount)
         targetNodes ∧
  (∀ k, amounts !! k
        = if decide (k ≠ "__proto__" ∧ k ∈ keyOf <$> targetNodes)
          then match getEdgeAttribute g sourceNode k "amount" with
               | inr amount => Some (js_or amount (JNum 0))
               | inl _ => None
               end
          else None) ∧
  (∀ k v, amounts !! k = Some v → truthy v = true ∨ v = JNum 0).
Proof.
  intros Hrun. unfold getEdgeAmounts in Hrun.
  pose proof (λ k, foldR_amounts_lookup _ _ _ k Hrun) as Hlookup.
  split_and!.
  - by eapply foldR_amounts_edges.
  - intros k. by rewrite (Hlookup k), lookup_empty.
  - intros k v. rewrite (Hlookup k), lookup_empty.
    case_decide; [|done].
    destruct (getEdgeAttribute g sourceNode k "amount") as [e|amount]; [done|].
    intros [= <-]. unfold js_or. destruct (truthy amount) eqn:Ht; [by left|by right].
Qed.

(** X16. [getEdgeAmounts] throws at the first target whose [id] names no
    edge from the source node, with the store's error, and returns no
    amounts. *)
Theorem getEdgeAmounts_throws_without_edge pre target post e :
  Forall (λ t, ∃ amount,
            getEdgeAttribute g sourceNode (keyOf t) "amount" = inr amount) pre →
  getEdgeAttribute g sourceNode (keyOf target) "amount" = inl e →
  getEdgeAmounts g sourceNode (pre ++ target :: post) = inl e.
Proof.
  intros Hpre Hedge. unfold getEdgeAmounts. generalize (∅ : Obj) as amounts0.
  induction Hpre as [|t pre [amount Ht] _ IH]; intros amounts0.
  - cbn [app foldR]. unfold mbind at 1, result_bind at 1. by rewrite Hedge.
  - cbn [app foldR]. unfold mbind at 1, result_bind at 1. rewrite Ht. cbn.
    apply IH.
Qed.
End EdgeAmountsFacts.

Lemma getEdgeAmounts_lookup_witness :
  getEdgeAmounts swordGraph "sword_1"
    [ nodeWithAttributes "attack" ∅; nodeWithAttributes "normal" ∅ ]
  = inr {[ "attack" := JNum 5; "normal" := JNum 0 ]} ∧
  ∀ k v, ({[ "attack" := JNum 5; "normal" := JNum 0 ]} : Obj) !! k = Some v →
         truthy v = true ∨ v = JNum 0.
Proof.
  split; [reflexivity|].
  apply (getEdgeAmounts_lookup swordGraph "sword_1"
           [ nodeWithAttributes "attack" ∅; nodeWithAttributes "normal" ∅ ]).
  reflexivity.
Defined.

Lemma getEdgeAmounts_throws_without_edge_witness :
  (∃ connected,
     getConnectedNodes swordGraph "sword_1" None = inr connected ∧
     getEdgeAmounts swordGraph "sword_1" connected
     = inl (NotFoundGraphError
              "could not find an edge for the given path (sword_1 - relic_v2)")) ∧
  getEdgeAmounts swordGraph "sword_1"
    ([ nodeWithAttributes "attack" ∅ ]
     ++ nodeWithAttributes "relic" {[ "id" := JStr "relic_v2" ]}
     :: [ nodeWithAttributes "basic" ∅ ])
  = inl (NotFoundGraphError
           "could not find an edge for the given path (sword_1 - relic_v2)").
Proof.
  split; [eexists; split; reflexivity|].
  apply (getEdgeAmounts_throws_without_edge swordGraph "sword_1").
  - constructor; [|constructor]. eexists. reflexivity.
  - reflexivity.
Defined.

(** ** graphologyToD3 *)

(** X17. Flattening a store never throws.  It yields one node object per
    node and one link per edge, in the store's order; a link carries the
    edge's attributes, and its [source] and [target] are the edge's ends
    unless the edge has attributes of those names, which then take their
    place. *)
Theorem graphologyToD3_shape g :
  ∃ out,
    graphologyToD3 g = inr out ∧
    length (nodes out) = length (nodeEntries g) ∧
    length (links out) = length (edgeEntries g) ∧
    Forall2 (λ e l, ∃ source target attributes,
               extremities g e = inr (source, target) ∧
               getEdgeAttributes g e = inr attributes ∧
               get_prop l "source" = default (JStr source) (attributes !! "source") ∧
               get_prop l "target" = default (JStr target) (attributes !! "target") ∧
               ∀ k, k ≠ "source" → k ≠ "target" → l !! k = attributes !! k)
            (edges_of g) (links out).
Proof.
  unfold graphologyToD3.
  destruct (mapR_total
    (λ id, attributes ← getNodeAttributes g id;
           mret (spread {[ "id" := JStr id ]} attributes)) (nodes_of g))
    as [ns Hns].
  { apply Forall_forall. intros id Hid.
    destruct (getNodeAttributes_listed g id Hid) as [attrs ->]. by eexists. }
  destruct (mapR_total
    (λ id, st ← extremities g id; attributes ← getEdgeAttributes g id;
           mret (spread {[ "source" := JStr st.1; "target" := JStr st.2 ]}
                        attributes)) (edges_of g))
    as [ls Hls].
  { apply Forall_forall. intros e He. unfold extremities, getEdgeAttributes, edgeData.
    unfold edges_of in He. apply list_elem_of_fmap in He as [x [-> Hx]].
    destruct (list_find_elem_of (λ y, y.1 = x.1) _ x Hx eq_refl) as [[i y] ->].
    cbn. by eexists. }
  rewrite Hns; cbn. rewrite Hls; cbn. eexists; split; [reflexivity|]. cbn.
  apply mapR_inr in Hns, Hls. split_and!.
  - apply Forall2_length in Hns. rewrite <- Hns. unfold nodes_of. by rewrite length_fmap.
  - apply Forall2_length in Hls. rewrite <- Hls. unfold edges_of. by rewrite length_fmap.
  - eapply Forall2_impl; [exact Hls|]. intros e l; cbn.
    destruct (extremities g e) as [err|[source target]]; cbn; [discriminate|].
    destruct (getEdgeAttributes g e) as [err|attributes]; cbn; [discriminate|].
    intros [= <-]. exists source, target, attributes.
    unfold get_prop, spread. split_and!; [done|done| | |].
    + destruct (attributes !! "source") as [v|] eqn:Hs.
      * by rewrite (lookup_union_Some_l _ _ _ _ Hs).
      * by rewrite lookup_union_r.
    + destruct (attributes !! "target") as [v|] eqn:Ht.
      * by rewrite (lookup_union_Some_l _ _ _ _ Ht).
      * by rewrite lookup_union_r.
    + intros k Hks Hkt. destruct (attributes !! k) as [v|] eqn:Hk.
      * by rewrite (lookup_union_Some_l _ _ _ _ Hk).
      * rewrite lookup_union_r by done.
        rewrite lookup_insert_ne by done. by rewrite lookup_singleton_ne.
Qed.

(** ** graphologyToMD: when it returns, and when it does not *)

Section AggregatorOutcomes.
Context {W TItem : Type}.
Variable rows : GraphOutput.
Variable nodeFilter : option (Obj → bool).
Variable createEmptyItem : M W TItem.
Variable populateItemFromNode : TItem → Obj → M W unit.
Variable processLink : TItem → Obj → option Obj → M W unit.
Variable generateMarkdown : JsMap TItem → M W unit.

Local Abbreviation scanLink' :=
  (scanLink rows nodeFilter createEmptyItem populateItemFromNode processLink).
Local Abbreviation scanLinks' :=
  (scanLinks rows nodeFilter createEmptyItem populateItemFromNode processLink).
Local Abbreviation run :=
  (graphologyToMD rows nodeFilter createEmptyItem populateItemFromNode
     processLink generateMarkdown).

Implicit Types (items : JsMap TItem) (row : Obj) (st : Traced W (@MdEvent TItem)).

Lemma scanLinks_returns ls items st :
  (∀ row, row ∈ ls →
     is_Some (findSourceNode rows nodeFilter (get_prop row "source"))) →
  (∀ w, ∃ w' data, createEmptyItem w = (w', inr data)) →
  (∀ data node w, ∃ w', populateItemFromNode data node w = (w', inr tt)) →
  (∀ data row w, row ∈ ls →
     ∃ w', processLink data row (findTargetNode rows (get_prop row "target")) w
           = (w', inr tt)) →
  ∃ st' items', scanLinks' items ls st = (st', inr items').
Proof.
  intros Hsrc Hcreate Hpop Hfold. revert items st.
  induction ls as [|row ls IH]; intros items st; [by eexists _, _|].
  assert (∃ st1 items1, scanLink' items row st = (st1, inr items1))
    as (st1 & items1 & Hrow).
  { unfold scanLink, itemFor, invoke, mbind, M_bind, bind, ret, throw.
    destruct (jsmap_get items (get_prop row "source")) as [data|].
    - destruct (Hfold data row (world st)) as [w' ->]; [by left|]. by eexists _, _.
    - destruct (Hsrc row) as [node ->]; [by left|].
      destruct (Hcreate (world st)) as (w1 & data & ->). cbn.
      destruct (Hpop data node w1) as [w2 ->]. cbn.
      destruct (Hfold data row w2) as [w3 ->]; [by left|]. by eexists _, _. }
  destruct (IH (λ r Hr, Hsrc r (list_elem_of_further _ _ _ Hr))
               (λ d r w Hr, Hfold d r w (list_elem_of_further _ _ _ Hr))
               items1 st1) as (st' & items' & Hrest).
  exists st', items'. unfold scanLinks in *. cbn [foldM].
  unfold mbind at 1; unfold M_bind, bind. by rewrite Hrow.
Qed.

(** X18. The aggregation returns whenever every link's source is found by
    the (filtered) source lookup and the functions it is given return: the
    factory, the populate function, the sink, and the fold function on each
    link with the target node the aggregator looks up for it. *)
Theorem graphologyToMD_returns w :
  (∀ row, row ∈ links rows →
     is_Some (findSourceNode rows nodeFilter (get_prop row "source"))) →
  (∀ w, ∃ w' data, createEmptyItem w = (w', inr data)) →
  (∀ data node w, ∃ w', populateItemFromNode data node w = (w', inr tt)) →
  (∀ data row w, row ∈ links rows →
     ∃ w', processLink data row (findTargetNode rows (get_prop row "target")) w
           = (w', inr tt)) →
  (∀ items w, ∃ w', generateMarkdown items w = (w', inr tt)) →
  ∃ st, run (mkTraced w []) = (st, inr tt).
Proof.
  intros Hsrc Hcreate Hpop Hfold Hsink.
  destruct (scanLinks_returns (links rows) [] (mkTraced w []) Hsrc Hcreate Hpop Hfold)
    as (st1 & items & Hscan).
  unfold graphologyToMD, mbind, M_bind, bind, invoke. rewrite Hscan.
  destruct (Hsink items (world st1)) as [w' ->]. by eexists.
Qed.

Lemma scanLink_folded items row st st' r :
  scanLink' items row st = (st', r) →
  ∃ evs, trace st' = trace st ++ evs ∧
         (foldedLinks evs = [row] ∨ (foldedLinks evs = [] ∧ ∃ e, r = inl e)).
Proof.
  unfold scanLink, itemFor, mbind, M_bind, bind, invoke, ret, throw. cbn.
  destruct (jsmap_get items (get_prop row "source")) as [data|].
  - destruct (processLink data row _ (world st)) as [w' [e|[]]];
      intros [= <- <-]; eexists; (split; [reflexivity|]); by left.
  - destruct (findSourceNode rows nodeFilter (get_prop row "source")) as [node|].
    2:{ intros [= <- <-]. exists []. rewrite app_nil_r. split; [done|]. right. eauto. }
    destruct (createEmptyItem (world st)) as [w1 [e|data]]; cbn.
    { intros [= <- <-]; eexists; (split; [reflexivity|]). right. eauto. }
    destruct (populateItemFromNode data node w1) as [w2 [e|[]]]; cbn.
    { intros [= <- <-]; eexists; cbn; (split; [by rewrite <- app_assoc|]).
      right. eauto. }
    destruct (processLink data row _ w2) as [w3 [e|[]]];
      intros [= <- <-]; eexists; cbn;
      (split; [by rewrite <- !app_assoc|]); by left.
Qed.

Lemma scanLinks_folded ls items st st' r :
  scanLinks' items ls st = (st', r) →
  ∃ evs, trace st' = trace st ++ evs ∧ foldedLinks evs `prefix_of` ls.
Proof.
  revert items st. induction ls as [|row ls IH]; intros items st; cbn.
  - intros [= <- <-]. exists []. by rewrite app_nil_r.
  - unfold mbind, M_bind, bind.
    destruct (scanLink' items row st) as [st1 [e|items1]] eqn:Hrow;
      apply scanLink_folded in Hrow as (evs1 & Htr1 & Hevs1).
    + intros [= <- <-]. exists evs1. split; [done|].
      destruct Hevs1 as [->|[-> _]]; [by apply prefix_cons, prefix_nil|apply prefix_nil].
    + destruct Hevs1 as [Hevs1|[_ [e [=]]]].
      intros Hrest. apply IH in Hrest as (evs2 & Htr2 & Hevs2).
      exists (evs1 ++ evs2). split; [by rewrite Htr2, Htr1, <- app_assoc|].
      unfold foldedLinks in *. rewrite omap_app, Hevs1. by apply prefix_cons.
Qed.

(** X19. When the scan of the links throws, for whatever reason (a missing
    source node, or the factory, the populate function or the fold function
    throwing), the aggregation throws that error in the world the scan left,
    and the sink is not called.  In every run the links that were folded are
    an initial part of the links, each folded once. *)
Theorem graphologyToMD_scan_failure w :
  (∀ st1 e,
     scanLinks' [] (links rows) (mkTraced w []) = (st1, inl e) →
     run (mkTraced w []) = (st1, inl e) ∧ sinkCalls (trace st1) = []) ∧
  foldedLinks (trace (run (mkTraced w [])).1) `prefix_of` links rows.
Proof.
  split.
  - intros st1 e Hscan. unfold graphologyToMD, mbind, M_bind, bind.
    rewrite Hscan. split; [done|].
    apply scanLinks_no_sink in Hscan as (evs & -> & Hevs). cbn.
    by apply sinkCalls_no_sink.
  - unfold graphologyToMD, mbind, M_bind, bind, invoke.
    destruct (scanLinks' [] (links rows) (mkTraced w [])) as [st1 [e|items]] eqn:Hscan;
      apply scanLinks_folded in Hscan as (evs & Htr & Hevs); cbn in Htr.
    + cbn. by rewrite Htr.
    + destruct (generateMarkdown items (world st1)) as [w' r]. cbn.
      rewrite Htr. unfold foldedLinks in *. rewrite omap_app. cbn.
      by rewrite app_nil_r.
Qed.
End AggregatorOutcomes.

Lemma graphologyToMD_returns_witness :
  ∃ st, heapAggregate itemRows = (st, inr tt).
Proof.
  apply (graphologyToMD_returns itemRows itemFilter heapCreateEmptyItem
           heapPopulateItemFromNode heapProcessLink heapGenerateMarkdown []).
  - intros row Hrow. unfold itemRows, links in Hrow.
    repeat (apply elem_of_cons in Hrow as [->|Hrow]; [eexists; reflexivity|]).
    by apply elem_of_nil in Hrow.
  - intros w. by eexists _, _.
  - intros data node w. by eexists.
  - intros data row w Hrow. unfold itemRows, links in Hrow.
    repeat (apply elem_of_cons in Hrow as [->|Hrow]; [eexists; reflexivity|]).
    by apply elem_of_nil in Hrow.
  - intros items w. by eexists.
Defined.

Lemma graphologyToMD_scan_failure_witness :
  (scanLinks danglingRows itemFilter heapCreateEmptyItem heapPopulateItemFromNode
     heapProcessLink [] (links danglingRows) (mkTraced [] [])).2
  = inl (Error "No target node for A => Z") ∧
  (heapAggregate danglingRows).2 = inl (Error "No target node for A => Z") ∧
  sinkCalls (trace (heapAggregate danglingRows).1) = [].
Proof.
  split; [reflexivity|].
  destruct (proj1 (graphologyToMD_scan_failure danglingRows itemFilter
                     heapCreateEmptyItem heapPopulateItemFromNode heapProcessLink
                     heapGenerateMarkdown [])
              _ (Error "No target node for A => Z") (surjective_pairing _))
    as [Hrun Hsink].
  unfold heapAggregate. rewrite Hrun. by split.
Defined.

(** ** The example exporter *)

Section ExampleFacts.
Variable rows : GraphOutput.
Implicit Types (items : JsMap nat) (heap : list Item) (row : Obj).

Lemma recordOf_snoc k done row :
  recordOf rows k (done ++ [row])
  = if decide (get_prop row "source" = k)
    then applyLink rows (recordOf rows k done) row
    else recordOf rows k done.
Proof.
  unfold recordOf. rewrite filter_app, filter_cons, filter_nil.
  case_decide; [by rewrite foldl_app|by rewrite app_nil_r].
Qed.

Lemma recordOf_fresh k done :
  k ∉ linkSources done → recordOf rows k done = initialRecord rows k.
Proof.
  unfold recordOf, linkSources. induction done as [|row done IH]; [done|].
  rewrite fmap_cons, not_elem_of_cons. intros [Hne Hnin].
  rewrite filter_cons, decide_False by done. by apply IH.
Qed.

Lemma prefix_alter_beyond {A} (f : A → A) (l0 l : list A) i :
  l0 `prefix_of` l → length l0 ≤ i → l0 `prefix_of` alter f i l.
Proof.
  intros [k ->] Hi. rewrite alter_app_r_alt by done. by apply prefix_app_r.
Qed.

Lemma exampleAgree_step heap0 done items row st st' items' :
  exampleAgree rows heap0 done items (world st) →
  exampleScan rows items [row] st = (st', inr items') →
  exampleAgree rows heap0 (done ++ [row]) items' (world st').
Proof.
  intros (Hrec & Hinj & Hkeys & Hnew & Hpre).
  unfold exampleScan, scanLinks. cbn [foldM].
  unfold scanLink, itemFor, invoke, mbind, M_bind, bind, ret, throw.
  destruct (jsmap_get items (get_prop row "source")) as [data|] eqn:Hget.
  - (* the source has its record *)
    destruct (findTargetNode rows (get_prop row "target")) as [t|] eqn:Htarget;
      [|done]. cbn. intros [= <- <-]. cbn [world].
    rewrite jsmap_set_same by done.
    split_and!; [|done| |done|].
    + intros k r Hk. rewrite recordOf_snoc. case_decide as Hsrc.
      * subst k. assert (r = data) as -> by congruence.
        rewrite list_lookup_alter, (Hrec _ _ Hget). cbn.
        unfold applyLink. rewrite Htarget. by rewrite decide_True.
      * rewrite list_lookup_alter_ne; [by apply Hrec|].
        intros <-. apply Hsrc. by eapply Hinj.
    + intros k. rewrite Hkeys. unfold linkSources.
      rewrite fmap_app, elem_of_app. cbn. rewrite list_elem_of_singleton.
      split; [by left|]. intros [?| ->]; [done|]. apply Hkeys. by eexists.
    + apply prefix_alter_beyond; [done|]. by eapply Hnew.
  - (* a new source *)
    destruct (findSourceNode rows exampleNodeFilter (get_prop row "source"))
      as [node|] eqn:Hnode; [|done]. cbn.
    destruct (findTargetNode rows (get_prop row "target")) as [t|] eqn:Htarget;
      [|done]. cbn. intros [= <- <-]. cbn [world].
    set (heap := world st) in *. set (source := get_prop row "source") in *.
    assert (source ∉ linkSources done) as Hfresh.
    { rewrite <- Hkeys, Hget. by intros [? ?]. }
    assert (∀ k r, jsmap_get items k = Some r → r < length heap) as Hbound.
    { intros k r Hk. apply lookup_lt_is_Some. rewrite (Hrec _ _ Hk). by eexists. }
    assert (alter (foldTarget row t) (length heap)
              (alter (populateFrom node) (length heap) (heap ++ [emptyItem]))
            = heap ++ [foldTarget row t (populateFrom node emptyItem)]) as ->.
    { rewrite !alter_app_r_alt by (rewrite ?length_alter; lia).
      by rewrite Nat.sub_diag. }
    split_and!.
    + intros k r. rewrite jsmap_get_set, recordOf_snoc. fold source.
      case_decide as Hsrc.
      * intros [= <-]. rewrite list_lookup_middle by done. subst k.
        rewrite (recordOf_fresh _ _ Hfresh).
        unfold applyLink, initialRecord. by rewrite Htarget, Hnode.
      * intros Hk. rewrite lookup_app_l by by eapply Hbound. by apply Hrec.
    + intros k1 k2 r. rewrite !jsmap_get_set.
      repeat case_decide; try congruence.
      * intros [= <-] Hk2. apply Hbound in Hk2. lia.
      * intros Hk1 [= <-]. apply Hbound in Hk1. lia.
      * apply Hinj.
    + intros k. rewrite jsmap_get_set. unfold linkSources.
      rewrite fmap_app, elem_of_app. cbn. rewrite list_elem_of_singleton.
      fold source. case_decide as Hsrc.
      * split; [by right|by eexists].
      * rewrite Hkeys. unfold linkSources. split; [by left|].
        intros [?|?]; [done|congruence].
    + intros k r. rewrite jsmap_get_set. case_decide.
      * intros [= <-]. by apply prefix_length.
      * apply Hnew.
    + by apply prefix_app_r.
Qed.

Lemma exampleAgree_scan heap0 ls done items st st' items' :
  exampleAgree rows heap0 done items (world st) →
  exampleScan rows items ls st = (st', inr items') →
  exampleAgree rows heap0 (done ++ ls) items' (world st').
Proof.
  revert done items st. induction ls as [|row ls IH]; intros done items st Hagree.
  - cbn. intros [= <- <-]. by rewrite app_nil_r.
  - unfold exampleScan, scanLinks. cbn [foldM]. unfold mbind at 1; unfold M_bind, bind.
    match goal with |- context [let (_, _) := ?t in _] =>
      destruct t as [st1 [e|items1]] eqn:Hrow end; [done|].
    intros Hrest. rewrite (cons_middle row), (assoc_L (++)).
    apply (IH _ items1 st1); [|exact Hrest].
    apply (exampleAgree_step heap0 done items row st); [done|].
    unfold exampleScan, scanLinks. cbn [foldM].
    unfold mbind at 1; unfold M_bind, bind. by rewrite Hrow.
Qed.

(** X20. The example exporter keeps the sources apart.  When its scan of
    the links ends, the record of each source is the empty item, populated
    from the source node and then folded with the links of that source alone,
    in link order; no two sources share a record; and the objects that were
    on the heap before are unchanged. *)
Theorem example_record_is_fold_of_own_links ls heap0 st items :
  exampleScan rows [] ls (mkTraced heap0 []) = (st, inr items) →
  (∀ k r, jsmap_get items k = Some r → world st !! r = Some (recordOf rows k ls)) ∧
  (∀ k1 k2 r, jsmap_get items k1 = Some r → jsmap_get items k2 = Some r → k1 = k2) ∧
  heap0 `prefix_of` world st.
Proof.
  intros Hscan.
  destruct (exampleAgree_scan heap0 ls [] [] (mkTraced heap0 []) st items)
    as (Hrec & Hinj & _ & _ & Hpre); [|done|done].
  split_and!; try done.
  intros k. split; [by intros [r [=]]|by intros ?%elem_of_nil].
Qed.

(** X21. The example's fold function needs the target node: when the links
    before a link were scanned, the link's source has or gets a record, and
    no node has the id of its target, the aggregation throws
    [No target node for <source> => <target>] and the sink is not called. *)
Theorem example_missing_target_throws generateMarkdown pre row post heap0 st1 items1 :
  links rows = pre ++ row :: post →
  exampleScan rows [] pre (mkTraced heap0 []) = (st1, inr items1) →
  is_Some (jsmap_get items1 (get_prop row "source"))
  ∨ is_Some (findSourceNode rows exampleNodeFilter (get_prop row "source")) →
  findTargetNode rows (get_prop row "target") = None →
  (graphologyToMD rows exampleNodeFilter exampleCreateEmptyItem
     examplePopulateItemFromNode exampleProcessLink generateMarkdown
     (mkTraced heap0 [])).2 = inl (noTargetNode row) ∧
  sinkCalls (trace (graphologyToMD rows exampleNodeFilter exampleCreateEmptyItem
                      examplePopulateItemFromNode exampleProcessLink
                      generateMarkdown (mkTraced heap0 [])).1) = [].
Proof.
  intros Hlinks Hpre Hsource Htarget.
  assert (∃ st2, scanLinks rows exampleNodeFilter exampleCreateEmptyItem
                   examplePopulateItemFromNode exampleProcessLink []
                   (links rows) (mkTraced heap0 [])
                 = (st2, inl (noTargetNode row))) as [st2 Hscan].
  { rewrite Hlinks. unfold exampleScan, scanLinks in *. rewrite foldM_app.
    unfold mbind at 1; unfold M_bind, bind. rewrite Hpre. cbn [foldM].
    unfold mbind at 1; unfold M_bind, bind.
    unfold scanLink, itemFor, invoke, mbind, M_bind, bind, ret, throw.
    rewrite Htarget.
    destruct (jsmap_get items1 (get_prop row "source")) as [data|]; [by eexists|].
    destruct Hsource as [[? [=]]|[node ->]]. by eexists. }
  unfold graphologyToMD, mbind, M_bind, bind. rewrite Hscan. cbn.
  split; [done|].
  apply scanLinks_no_sink in Hscan as (evs & -> & Hevs). cbn.
  by apply sinkCalls_no_sink.
Qed.
End ExampleFacts.

Lemma example_record_is_fold_of_own_links_witness :
  (exampleScan itemRows [] (links itemRows) (mkTraced [] [])).2
  = inr [(JStr "D", 0); (JStr "A", 1)] ∧
  world (exampleScan itemRows [] (links itemRows) (mkTraced [] [])).1 !! 1
  = Some (recordOf itemRows (JStr "A") (links itemRows)) ∧
  item_name (recordOf itemRows (JStr "A") (links itemRows)) = JStr "Sword I" ∧
  item_tier (recordOf itemRows (JStr "A") (links itemRows)) = JStr "Advanced" ∧
  item_attributes (recordOf itemRows (JStr "A") (links itemRows)) !! "B"
  = Some (JNum 7).
Proof.
  split; [reflexivity|]. split; [|split_and!; reflexivity].
  apply (proj1 (example_record_is_fold_of_own_links itemRows (links itemRows) []
                  (exampleScan itemRows [] (links itemRows) (mkTraced [] [])).1
                  [(JStr "D", 0); (JStr "A", 1)] eq_refl) (JStr "A") 1).
  reflexivity.
Defined.

Lemma example_missing_target_throws_witness :
  links danglingRows = [] ++ link "A" "Z" ∅ :: [] ∧
  findTargetNode danglingRows (get_prop (link "A" "Z" ∅) "target") = None ∧
  noTargetNode (link "A" "Z" ∅) = Error "No target node for A => Z" ∧
  (graphologyToMD danglingRows exampleNodeFilter exampleCreateEmptyItem
     examplePopulateItemFromNode exampleProcessLink (λ _, ret tt)
     (mkTraced [] [])).2 = inl (noTargetNode (link "A" "Z" ∅)) ∧
  sinkCalls (trace (graphologyToMD danglingRows exampleNodeFilter
                      exampleCreateEmptyItem examplePopulateItemFromNode
                      exampleProcessLink (λ _, ret tt) (mkTraced [] [])).1) = [].
Proof.
  split; [reflexivity|]. split; [reflexivity|]. split; [reflexivity|].
  apply (example_missing_target_throws danglingRows (λ _, ret tt)
           [] (link "A" "Z" ∅) [] [] (mkTraced [] []) []).
  - reflexivity.
  - reflexivity.
  - right. by eexists.
  - reflexivity.
Defined.

(** ** getConnectedNodes *)

(** X22. [getConnectedNodes] throws what the store's neighbor query throws.
    When it returns, there is one record per neighbor, in the order the
    store lists them; a record has the attributes of its node, each with its
    value, and the key [id], and nothing else. *)
Theorem getConnectedNodes_records g nodeId direction :
  (∀ e, neighborFn g (default DirOut direction) nodeId = inl e →
        getConnectedNodes g nodeId direction = inl e) ∧
  (∀ records,
     getConnectedNodes g nodeId direction = inr records →
     ∃ ids,
       neighborFn g (default DirOut direction) nodeId = inr ids ∧
       length records = length ids ∧
       Forall2 (λ id r, ∃ attrs,
                  getNodeAttributes g id = inr attrs ∧
                  dom r = dom attrs ∪ {[ "id" ]} ∧
                  ∀ k, k ≠ "id" → r !! k = attrs !! k)
               ids records).
Proof.
  unfold getConnectedNodes. split.
  - by intros e ->.
  - intros records.
    destruct (neighborFn g (default DirOut direction) nodeId) as [e|ids]; cbn;
      [discriminate|].
    intros Hmap%mapR_inr. exists ids. split_and!; [done| |].
    + symmetry. by eapply Forall2_length.
    + eapply Forall2_impl; [exact Hmap|]. intros id r; cbn.
      destruct (getNodeAttributes g id) as [e|attrs]; cbn; [discriminate|].
      intros [= <-]. exists attrs. split_and!; [done| |].
      * unfold nodeWithAttributes, spread. by rewrite dom_union_L, dom_singleton_L.
      * intros k Hk. by apply nodeWithAttributes_other.
Qed.

Lemma getConnectedNodes_records_witness :
  getConnectedNodes swordGraph "nope" (Some DirBoth)
  = inl (NotFoundGraphError "could not find the node nope") ∧
  ∃ ids,
    neighborFn swordGraph DirIn "attack" = inr ids ∧
    length [ nodeWithAttributes "sword_1"
               {[ "id" := JStr "sword_1"; "name" := JStr "Sword I";
                  "type" := JStr "item"; "weight" := JNum 1; "value" := JNum 5 ]} ]
    = length ids ∧
    Forall2 (λ id r, ∃ attrs,
               getNodeAttributes swordGraph id = inr attrs ∧
               dom r = dom attrs ∪ {[ "id" ]} ∧
               ∀ k, k ≠ "id" → r !! k = attrs !! k)
            ids
            [ nodeWithAttributes "sword_1"
                {[ "id" := JStr "sword_1"; "name" := JStr "Sword I";
                   "type" := JStr "item"; "weight" := JNum 1; "value" := JNum 5 ]} ].
Proof.
  split.
  - apply (proj1 (getConnectedNodes_records swordGraph "nope" (Some DirBoth))).
    reflexivity.
  - apply (proj2 (getConnectedNodes_records swordGraph "attack" (Some DirIn))).
    reflexivity.
Defined.
